(** * Onyt: a shallow embedding of [main.go]

    The program polls the YouTube API for one channel, keeps the latest
    snapshot in the global [state] and serves it as JSON.  This file embeds
    the live-video resolver ([fetchLiveVideoId] with the regular expression
    [re]), the three API fetchers, the orchestrator [refresh] and the HTTP
    handler of [startWebServer], and proves properties of them.

    Conventions.
    - A Go string is a byte sequence: [string] (a list of 8-bit [ascii]).
    - A Go pointer [*T] is [option T]; [None] is [nil]; dereferencing [nil]
      is a run-time panic.
    - A Go slice is [slice T]: either the nil slice or a list of elements.
      [len], [range] and indexing do not tell them apart, [encoding/json]
      does.
    - A Go pair [(T, error)] with the usual "value or error" discipline is
      [result T]; a lone [error] is [option error] ([None] is [nil]).
    - Everything outside the program (the API behind [*youtube.Service], the
      network, the HTML parser and the selector engine) is an oracle: a
      record of functions. *)

From Stdlib Require Import String Ascii List Bool Arith Lia.
Import ListNotations.
Local Open Scope string_scope.
Local Open Scope list_scope.

Set Implicit Arguments.

(** ** Go data *)

Definition error := string.

Inductive result (A : Type) : Type :=
| Ok (a : A)
| Err (err : error).
Arguments Ok {A} a.
Arguments Err {A} err.

Inductive slice (A : Type) : Type :=
| nil_slice
| mk_slice (l : list A).
Arguments nil_slice {A}.
Arguments mk_slice {A} l.

(** The elements of a slice; this is all that [len], [range] and indexing
    see. *)
Definition elems {A} (s : slice A) : list A :=
  match s with
  | nil_slice => []
  | mk_slice l => l
  end.

Definition len {A} (s : slice A) : nat := List.length (elems s).

(** [make([]T, 0)]: an empty slice that is not nil. *)
Definition make_empty {A} : slice A := mk_slice [].

(** The empty Go string. *)
Definition empty : string := EmptyString.

(** ** Bytes and case *)

Definition LF : ascii := ascii_of_nat 10.

Definition is_upper (c : ascii) : bool :=
  ((65 <=? nat_of_ascii c) && (nat_of_ascii c <=? 90))%nat.

Definition is_lower (c : ascii) : bool :=
  ((97 <=? nat_of_ascii c) && (nat_of_ascii c <=? 122))%nat.

Definition is_letter (c : ascii) : bool := is_upper c || is_lower c.

Definition lower (c : ascii) : ascii :=
  if is_upper c then ascii_of_nat (nat_of_ascii c + 32) else c.

Definition upper (c : ascii) : ascii :=
  if is_lower c then ascii_of_nat (nat_of_ascii c - 32) else c.

(** Whether the byte [c] occurs in [s]. *)
Fixpoint contains (s : string) (c : ascii) : bool :=
  match s with
  | EmptyString => false
  | String d s' => Ascii.eqb c d || contains s' c
  end.

(** Equality of two byte strings up to the case of ASCII letters. *)
Fixpoint EqualFoldASCII (a b : string) : bool :=
  match a, b with
  | EmptyString, EmptyString => true
  | String x a', String y b' =>
      Ascii.eqb (lower x) (lower y) && EqualFoldASCII a' b'
  | _, _ => false
  end.

Fixpoint strip_prefix (p s : string) : option string :=
  match p, s with
  | EmptyString, _ => Some s
  | String a p', String b s' =>
      if Ascii.eqb a b then strip_prefix p' s' else None
  | String _ _, EmptyString => None
  end.

(** ** The regular expression [re]

    [(?i)https://www\.youtube\.com/watch\?v=(.+)]: a literal matched with
    case folding, followed by one capture group of one or more characters
    other than a line feed (no [s] flag).  The expression is not anchored. *)
Module regexp.

(** The literal part of the pattern, escapes removed. *)
Definition literal : string := "https://www.youtube.com/watch?v=".

(** Under [(?i)] a literal rune matches every rune of its simple case
    folding orbit.  For an ASCII letter that is the other case and, for
    two letters, one more rune: U+017F (long s) for [s] and U+212A (Kelvin
    sign) for [k], here in their UTF-8 encodings. *)
Definition long_s : string :=
  String (ascii_of_nat 197) (String (ascii_of_nat 191) EmptyString).

Definition kelvin : string :=
  String (ascii_of_nat 226)
    (String (ascii_of_nat 132) (String (ascii_of_nat 170) EmptyString)).

Definition extraFold (r : ascii) : option string :=
  if Ascii.eqb (lower r) "s" then Some long_s
  else if Ascii.eqb (lower r) "k" then Some kelvin
  else None.

(** One input byte against one literal rune [r] of the pattern. *)
Definition foldEq (r c : ascii) : bool :=
  Ascii.eqb c r || (is_letter r && Ascii.eqb (lower c) (lower r)).

(** Match the literal rune [r] at the front of [s]: the text it matched
    and the rest of the input. *)
Definition matchRuneFold (r : ascii) (s : string) : option (string * string) :=
  match s with
  | EmptyString => None
  | String c rest =>
      if foldEq r c then Some (String c EmptyString, rest)
      else
        match extraFold r with
        | Some enc =>
            match strip_prefix enc s with
            | Some rest' => Some (enc, rest')
            | None => None
            end
        | None => None
        end
  end.

Fixpoint matchLiteralFold (lit s : string) : option (string * string) :=
  match lit with
  | EmptyString => Some (EmptyString, s)
  | String r lit' =>
      match matchRuneFold r s with
      | Some (m, rest) =>
          match matchLiteralFold lit' rest with
          | Some (m', rest') => Some ((m ++ m')%string, rest')
          | None => None
          end
      | None => None
      end
  end.

(** The longest prefix without a line feed: what a greedy [.*] takes. *)
Fixpoint takeLine (s : string) : string :=
  match s with
  | EmptyString => EmptyString
  | String c rest =>
      if Ascii.eqb c LF then EmptyString else String c (takeLine rest)
  end.

(** A match starting exactly at the front of [s]: the whole match and
    group 1.  [.+] needs at least one character. *)
Definition matchHere (s : string) : option (string * string) :=
  match matchLiteralFold literal s with
  | Some (m, rest) =>
      match takeLine rest with
      | EmptyString => None
      | String c g => Some ((m ++ String c g)%string, String c g)
      end
  | None => None
  end.

(** The leftmost match.  The literal starts with an ASCII letter and an
    ASCII byte always starts a rune, so trying every byte offset finds the
    same match as trying every rune offset. *)
Fixpoint find (s : string) : option (string * string) :=
  match matchHere s with
  | Some r => Some r
  | None =>
      match s with
      | EmptyString => None
      | String _ rest => find rest
      end
  end.

(** [re.FindStringSubmatch]: nil when there is no match, otherwise the
    whole match followed by group 1. *)
Definition FindStringSubmatch (s : string) : list string :=
  match find s with
  | Some (whole, g1) => [whole; g1]
  | None => []
  end.

End regexp.

(** ** The HTML document and the network *)

Module html.
Record Attribute := { Key : string; Val : string }.
Record Node := { Data : string; Attr : list Attribute }.
End html.

Module http.
Record Cookie := { Name : string; Value : string; Secure : bool }.
Record Request := { Method : string; URL : string; Cookies : list Cookie }.
Record Response := { StatusCode : nat; Body : string }.

Definition MethodGet : string := "GET".

Definition AddCookie (req : Request) (c : Cookie) : Request :=
  {| Method := Method req; URL := URL req; Cookies := Cookies req ++ [c] |}.
End http.

(** What [fetchLiveVideoId] calls outside the program.  [Document] is the
    parsed tree ([*html.Node] as the root of a document), [Selector] a
    compiled selector; [cascadia_Query] returns the first matching node or
    nil. *)
Record Web := {
  Document : Type;
  Selector : Type;
  http_NewRequest : string -> string -> result http.Request;
  http_Do : http.Request -> result http.Response;
  html_Parse : string -> result Document;
  cascadia_Parse : string -> result Selector;
  cascadia_Query : Document -> Selector -> option html.Node
}.

(** ** fetchLiveVideoId *)

(** The loop over [node.Attr]: the first attribute named [href] whose value
    matches [re] decides; [None] stands for falling out of the loop.
    [sm[1]] is in range whenever [len(sm) > 0]
    (see [FindStringSubmatch_length]). *)
Fixpoint range_Attr (attrs : list html.Attribute) : option string :=
  match attrs with
  | [] => None
  | v :: attrs' =>
      if String.eqb (html.Key v) "href" then
        let sm := regexp.FindStringSubmatch (html.Val v) in
        if (0 <? List.length sm)%nat then Some (nth 1 sm empty)
        else range_Attr attrs'
      else range_Attr attrs'
  end.

Definition live_url (channelId : string) : string :=
  ("https://www.youtube.com/channel/" ++ channelId ++ "/live")%string.

Definition consent_cookie : http.Cookie :=
  {| http.Name := "CONSENT"; http.Value := "YES+42"; http.Secure := true |}.

Definition fetchLiveVideoId (web : Web) (channelId : string) : result string :=
  match http_NewRequest web http.MethodGet (live_url channelId) with
  | Err err => Err err
  | Ok req =>
      let req := http.AddCookie req consent_cookie in
      match http_Do web req with
      | Err err => Err err
      | Ok resp =>
          match html_Parse web (http.Body resp) with
          | Err err => Err err
          | Ok doc =>
              match cascadia_Parse web "link[rel='canonical']" with
              | Err err => Err err
              | Ok sel =>
                  match cascadia_Query web doc sel with
                  | Some node =>
                      match range_Attr (html.Attr node) with
                      | Some id => Ok id
                      | None => Ok empty
                      end
                  | None => Ok empty
                  end
              end
          end
      end
  end.

(** ** The YouTube API client

    The records of [google.golang.org/api/youtube/v3] with the fields the
    program reads, and [Etag] as a representative of the rest of the
    payload.  Pointer-valued fields are options. *)
Module youtube.

Record ChannelContentDetailsRelatedPlaylists := { Uploads : string }.

Record ChannelContentDetails := {
  RelatedPlaylists : option ChannelContentDetailsRelatedPlaylists
}.

Record Channel := {
  Channel_Id : string;
  Channel_Etag : string;
  Channel_ContentDetails : option ChannelContentDetails
}.

Record PlaylistItemContentDetails := { VideoId : string }.

Record PlaylistItem := {
  PlaylistItem_ContentDetails : option PlaylistItemContentDetails
}.

Record Video := { Video_Id : string; Video_Etag : string }.

Record ChannelListResponse := { Channel_Items : slice (option Channel) }.
Record PlaylistItemListResponse := {
  PlaylistItem_Items : slice (option PlaylistItem)
}.
Record VideoListResponse := { Video_Items : slice (option Video) }.

(** [*youtube.Service]: each field is one request builder run to its
    [Do()], as a function of the arguments the program sets (the parts,
    then the filter, then [MaxResults] where it is set). *)
Record Service := {
  Channels_List_Do : list string -> string -> result ChannelListResponse;
  PlaylistItems_List_Do :
    list string -> string -> nat -> result PlaylistItemListResponse;
  Videos_List_Do : list string -> list string -> result VideoListResponse
}.

End youtube.

(** ** The snapshot *)

Record State := {
  Channel : option youtube.Channel;
  LiveVideo : option youtube.Video;
  Videos : slice (option youtube.Video)
}.

(** [new(State)]: every field is zero. *)
Definition new_State : State :=
  {| Channel := None; LiveVideo := None; Videos := nil_slice |}.

(** ** The fetchers

    In [fetchChannel] the index [resp.Items[0]] is guarded by the length
    test, so it is in range and [nth]'s default is never returned. *)

Definition fetchChannel (src : youtube.Service) (channelId : string)
  : result (option youtube.Channel) :=
  match youtube.Channels_List_Do src
          ["contentDetails"; "snippet"; "statistics"] channelId with
  | Err err => Err err
  | Ok resp =>
      if (0 <? len (youtube.Channel_Items resp))%nat
      then Ok (nth 0 (elems (youtube.Channel_Items resp)) None)
      else Ok None
  end.

Definition fetchPlaylistItems (src : youtube.Service) (playlistId : string)
  : result (slice (option youtube.PlaylistItem)) :=
  match youtube.PlaylistItems_List_Do src
          ["contentDetails"; "snippet"] playlistId 25 with
  | Err err => Err err
  | Ok resp => Ok (youtube.PlaylistItem_Items resp)
  end.

Definition fetchVideos (src : youtube.Service) (videoIds : list string)
  : result (slice (option youtube.Video)) :=
  match youtube.Videos_List_Do src
          ["snippet"; "statistics"; "liveStreamingDetails"] videoIds with
  | Err err => Err err
  | Ok resp => Ok (youtube.Video_Items resp)
  end.

(** ** The orchestrator

    [refresh] runs against a world: the global [state] and, for the claims
    about which fetcher runs, the list of fetcher calls made so far.  It
    ends by returning or with a run-time panic. *)

Inductive Call :=
| Call_fetchChannel (channelId : string)
| Call_fetchLiveVideoId (channelId : string)
| Call_fetchPlaylistItems (playlistId : string)
| Call_fetchVideos (videoIds : list string).

Record World := { state : State; calls : list Call }.

Inductive outcome (A : Type) : Type :=
| Returned (a : A)
| Panicked (msg : string).
Arguments Returned {A} a.
Arguments Panicked {A} msg.

Definition M (A : Type) : Type := World -> outcome A * World.

Definition ret {A} (a : A) : M A := fun w => (Returned a, w).

Definition bind {A B} (m : M A) (k : A -> M B) : M B :=
  fun w =>
    match m w with
    | (Returned a, w') => k a w'
    | (Panicked msg, w') => (Panicked msg, w')
    end.

Declare Scope go_scope.
Delimit Scope go_scope with go.
Notation "x <- m ;; k" := (bind m (fun x => k))
  (at level 61, m at next level, right associativity) : go_scope.
Notation "m ;; k" := (bind m (fun _ => k))
  (at level 61, right associativity) : go_scope.
Local Open Scope go_scope.

Definition panic {A} (msg : string) : M A := fun w => (Panicked msg, w).

Definition nil_dereference : string :=
  "runtime error: invalid memory address or nil pointer dereference".

(** Reading a field through a pointer. *)
Definition deref {A} (p : option A) : M A :=
  match p with
  | Some a => ret a
  | None => panic nil_dereference
  end.

(** Running a fetcher: the call is recorded, its result handed on. *)
Definition invoke {A} (c : Call) (r : A) : M A :=
  fun w => (Returned r, {| state := state w; calls := calls w ++ [c] |}).

Definition modify (f : State -> State) : M unit :=
  fun w => (Returned tt, {| state := f (state w); calls := calls w |}).

Definition set_Channel (c : option youtube.Channel) : M unit :=
  modify (fun s =>
    {| Channel := c; LiveVideo := LiveVideo s; Videos := Videos s |}).

Definition set_LiveVideo (v : option youtube.Video) : M unit :=
  modify (fun s =>
    {| Channel := Channel s; LiveVideo := v; Videos := Videos s |}).

Definition set_Videos (vs : slice (option youtube.Video)) : M unit :=
  modify (fun s =>
    {| Channel := Channel s; LiveVideo := LiveVideo s; Videos := vs |}).

(** [for _, v := range playlistItems { videoIds = append(videoIds,
    v.ContentDetails.VideoId) }] *)
Fixpoint range_playlistItems (items : list (option youtube.PlaylistItem))
    (videoIds : list string) : M (list string) :=
  match items with
  | [] => ret videoIds
  | v :: items' =>
      item <- deref v ;;
      details <- deref (youtube.PlaylistItem_ContentDetails item) ;;
      range_playlistItems items' (videoIds ++ [youtube.VideoId details])
  end.

Definition index_out_of_range : string :=
  "runtime error: index out of range".

Definition slice_bounds_out_of_range : string :=
  "runtime error: slice bounds out of range".

(** [s[i]] *)
Definition index {A} (s : slice A) (i : nat) : M A :=
  match nth_error (elems s) i with
  | Some a => ret a
  | None => panic index_out_of_range
  end.

(** [s[i:]] *)
Definition slice_from {A} (s : slice A) (i : nat) : M (slice A) :=
  if (i <=? len s)%nat then
    match s with
    | nil_slice => ret nil_slice
    | mk_slice l => ret (mk_slice (skipn i l))
    end
  else panic slice_bounds_out_of_range.

(** [if len(videos) > 0 && videos[0].Id == liveVideoId { liveVideo =
    videos[0]; videos = videos[1:] }], [liveVideo] starting as nil.  The
    right operand of [&&] is evaluated only when the left one holds. *)
Definition partition (liveVideoId : string)
    (videos : slice (option youtube.Video))
  : M (option youtube.Video * slice (option youtube.Video)) :=
  let liveVideo : option youtube.Video := None in
  if (0 <? len videos)%nat then
    first <- index videos 0 ;;
    v <- deref first ;;
    if String.eqb (youtube.Video_Id v) liveVideoId then
      liveVideo <- index videos 0 ;;
      videos <- slice_from videos 1 ;;
      ret (liveVideo, videos)
    else ret (liveVideo, videos)
  else ret (liveVideo, videos).

Definition refresh (web : Web) (src : youtube.Service) (channelId : string)
  : M (option error) :=
  r <- invoke (Call_fetchChannel channelId) (fetchChannel src channelId) ;;
  match r with
  | Err err => ret (Some err)
  | Ok channel =>
  c <- deref channel ;;
  r <- invoke (Call_fetchLiveVideoId (youtube.Channel_Id c))
         (fetchLiveVideoId web (youtube.Channel_Id c)) ;;
  match r with
  | Err err => ret (Some err)
  | Ok liveVideoId =>
  details <- deref (youtube.Channel_ContentDetails c) ;;
  related <- deref (youtube.RelatedPlaylists details) ;;
  r <- invoke (Call_fetchPlaylistItems (youtube.Uploads related))
         (fetchPlaylistItems src (youtube.Uploads related)) ;;
  match r with
  | Err err => ret (Some err)
  | Ok playlistItems =>
  let videoIds : list string := [] in
  let videoIds :=
    if String.eqb liveVideoId empty then videoIds
    else videoIds ++ [liveVideoId] in
  videoIds <- range_playlistItems (elems playlistItems) videoIds ;;
  set_Channel channel ;;
  if (List.length videoIds =? 0)%nat then
    set_Videos make_empty ;;
    set_LiveVideo None ;;
    ret None
  else
  r <- invoke (Call_fetchVideos videoIds) (fetchVideos src videoIds) ;;
  match r with
  | Err err => ret (Some err)
  | Ok videos =>
  p <- partition liveVideoId videos ;;
  set_LiveVideo (fst p) ;;
  set_Videos (snd p) ;;
  ret None
  end end end end.

(** ** JSON encoding of the snapshot

    [encoding/json] on [*State]: an object with the three tagged fields in
    declaration order; a nil pointer and a nil slice are [null], a slice is
    an array.  The encoders of the API records ([MarshalJSON] of
    [youtube.Channel] and [youtube.Video]) belong to the client library and
    are parameters; on records decoded from API responses they do not
    fail. *)
Module json.

Definition quote : string := String (ascii_of_nat 34) EmptyString.

Definition null : string := "null".

Definition key (name : string) : string :=
  (quote ++ name ++ quote ++ ":")%string.

Definition pointer {A} (enc : A -> string) (p : option A) : string :=
  match p with
  | None => null
  | Some a => enc a
  end.

Fixpoint join (l : list string) : string :=
  match l with
  | [] => EmptyString
  | [x] => x
  | x :: l' => (x ++ "," ++ join l')%string
  end.

Definition array {A} (enc : A -> string) (s : slice A) : string :=
  match s with
  | nil_slice => null
  | mk_slice l => ("[" ++ join (map enc l) ++ "]")%string
  end.

Section Marshal.
Variable marshalChannel : youtube.Channel -> string.
Variable marshalVideo : youtube.Video -> string.

Definition Marshal (s : State) : string :=
  ("{" ++ key "channel" ++ pointer marshalChannel (Channel s)
    ++ "," ++ key "liveVideo" ++ pointer marshalVideo (LiveVideo s)
    ++ "," ++ key "videos" ++ array (pointer marshalVideo) (Videos s)
    ++ "}")%string.

(** [Encoder.Encode]: the value followed by a line feed. *)
Definition Encode (s : State) : string :=
  (Marshal s ++ String LF EmptyString)%string.
End Marshal.

End json.

(** ** The HTTP handler

    [net/http] as far as the handler uses it: a header map with canonical
    keys, and a response writer whose first [Write] sends status 200 with
    the headers set so far.  The server treats two kinds of request in its
    own way: it sends no body in answer to HEAD, and it answers [OPTIONS *]
    without running the program's handler. *)
Module server.

Definition is_digit (c : ascii) : bool :=
  ((48 <=? nat_of_ascii c) && (nat_of_ascii c <=? 57))%nat.

Definition validHeaderFieldByte (c : ascii) : bool :=
  is_letter c || is_digit c || contains "!#$%&'*+-.^_`|~" c.

Fixpoint all_valid (s : string) : bool :=
  match s with
  | EmptyString => true
  | String c s' => validHeaderFieldByte c && all_valid s'
  end.

Fixpoint canonical (up : bool) (s : string) : string :=
  match s with
  | EmptyString => EmptyString
  | String c s' =>
      let c' := if up then upper c else lower c in
      String c' (canonical (Ascii.eqb c' "-") s')
  end.

(** [textproto.CanonicalMIMEHeaderKey] *)
Definition CanonicalMIMEHeaderKey (s : string) : string :=
  if all_valid s then canonical true s else s.

Definition Header := list (string * list string).

Fixpoint remove (k : string) (h : Header) : Header :=
  match h with
  | [] => []
  | (k', v) :: h' =>
      if String.eqb k k' then remove k h' else (k', v) :: remove k h'
  end.

Definition Set_ (h : Header) (k v : string) : Header :=
  let k := CanonicalMIMEHeaderKey k in
  (k, [v]) :: remove k h.

Fixpoint lookup (k : string) (h : Header) : list string :=
  match h with
  | [] => []
  | (k', v) :: h' => if String.eqb k k' then v else lookup k h'
  end.

(** [Header.Get]: the first value under the canonical key, or the empty
    string. *)
Definition Get (h : Header) (k : string) : string :=
  match lookup (CanonicalMIMEHeaderKey k) h with
  | v :: _ => v
  | [] => empty
  end.

Record ResponseWriter := {
  method : string;
  header : Header;
  wroteHeader : bool;
  status : nat;
  sent : Header;
  body : string
}.

(** The writer the server makes for the request [r]. *)
Definition new_ResponseWriter (r : http.Request) : ResponseWriter :=
  {| method := http.Method r; header := []; wroteHeader := false;
     status := 0; sent := []; body := EmptyString |}.

Definition set_header (w : ResponseWriter) (k v : string) : ResponseWriter :=
  {| method := method w; header := Set_ (header w) k v;
     wroteHeader := wroteHeader w; status := status w; sent := sent w;
     body := body w |}.

Definition WriteHeader (w : ResponseWriter) (code : nat) : ResponseWriter :=
  if wroteHeader w then w
  else {| method := method w; header := header w; wroteHeader := true;
          status := code; sent := header w; body := body w |}.

Definition StatusOK : nat := 200.

(** [Write]: the first write sends the header with status 200; the data
    follows, except in answer to a HEAD request, where the server eats
    every write. *)
Definition Write (w : ResponseWriter) (data : string) : ResponseWriter :=
  let w := WriteHeader w StatusOK in
  if String.eqb (method w) "HEAD" then w
  else {| method := method w; header := header w;
          wroteHeader := wroteHeader w; status := status w; sent := sent w;
          body := (body w ++ data)%string |}.

(** The request [OPTIONS *], which the server answers itself.  The field
    [http.URL] of a request received by the server is its request
    target. *)
Definition is_general_options (r : http.Request) : bool :=
  String.eqb (http.URL r) "*" && String.eqb (http.Method r) "OPTIONS".

(** [globalOptionsHandler], which replaces the program's handler for
    [OPTIONS *]. *)
Definition globalOptionsHandler (w : ResponseWriter) (r : http.Request)
  : ResponseWriter :=
  set_header w "Content-Length" "0".

Section Handler.
Variable marshalChannel : youtube.Channel -> string.
Variable marshalVideo : youtube.Video -> string.

(** The handler of [startWebServer], reading the global [state]. *)
Definition handler (state : State) (w : ResponseWriter)
    (r : http.Request) : ResponseWriter :=
  let w := set_header w "content-type" "application/json" in
  Write w (json.Encode marshalChannel marshalVideo state).

(** One request that the server has read and accepted, as
    [http.ListenAndServe] runs it: a fresh writer, the handler (or the
    server's own handler for [OPTIONS *]), and the implicit
    [WriteHeader(200)] for a handler that wrote nothing. *)
Definition serve (state : State) (r : http.Request) : ResponseWriter :=
  let w := new_ResponseWriter r in
  let w := if is_general_options r then globalOptionsHandler w r
           else handler state w r in
  WriteHeader w StatusOK.
End Handler.

End server.

(** ** Auxiliary definitions for the statements *)

(** The video ids a playlist page contributes, when every item and its
    content details are present: what [range_playlistItems] appends. *)
Fixpoint playlist_video_ids (items : list (option youtube.PlaylistItem))
  : option (list string) :=
  match items with
  | [] => Some []
  | Some item :: items' =>
      match youtube.PlaylistItem_ContentDetails item with
      | Some details =>
          match playlist_video_ids items' with
          | Some ids => Some (youtube.VideoId details :: ids)
          | None => None
          end
      | None => None
      end
  | None :: _ => None
  end.

(** The candidate id list of one cycle: the live id first unless it is
    empty, then the playlist's ids. *)
Definition candidate_ids (liveVideoId : string) (ids : list string)
  : list string :=
  (if String.eqb liveVideoId empty then [] else [liveVideoId]) ++ ids.

(** The first three fetches of a cycle for [channelId] all succeed: they
    give the channel [c], the live id and the candidate ids. *)
Definition candidates (web : Web) (src : youtube.Service)
    (channelId : string) (c : youtube.Channel) (uploads liveVideoId : string)
    (videoIds : list string) : Prop :=
  exists details playlistItems ids,
    fetchChannel src channelId = Ok (Some c) /\
    fetchLiveVideoId web (youtube.Channel_Id c) = Ok liveVideoId /\
    youtube.Channel_ContentDetails c = Some details /\
    youtube.RelatedPlaylists details
      = Some {| youtube.Uploads := uploads |} /\
    fetchPlaylistItems src uploads = Ok playlistItems /\
    playlist_video_ids (elems playlistItems) = Some ids /\
    videoIds = candidate_ids liveVideoId ids.

(** The fetcher calls of a cycle that reaches the playlist fetch. *)
Definition first_calls (channelId : string) (c : youtube.Channel)
    (uploads : string) : list Call :=
  [Call_fetchChannel channelId;
   Call_fetchLiveVideoId (youtube.Channel_Id c);
   Call_fetchPlaylistItems uploads].

(** The ids of the videos present in a response. *)
Fixpoint video_ids (l : list (option youtube.Video)) : list string :=
  match l with
  | [] => []
  | Some v :: l' => youtube.Video_Id v :: video_ids l'
  | None :: l' => video_ids l'
  end.

(** A step of [fetchLiveVideoId] that can fail does fail with [err], the
    steps before it having succeeded. *)
Definition resolver_step_fails (web : Web) (channelId : string) (err : error)
  : Prop :=
  http_NewRequest web http.MethodGet (live_url channelId) = Err err \/
  (exists req,
     http_NewRequest web http.MethodGet (live_url channelId) = Ok req /\
     (http_Do web (http.AddCookie req consent_cookie) = Err err \/
      exists resp,
        http_Do web (http.AddCookie req consent_cookie) = Ok resp /\
        (html_Parse web (http.Body resp) = Err err \/
         exists doc,
           html_Parse web (http.Body resp) = Ok doc /\
           cascadia_Parse web "link[rel='canonical']" = Err err))).

(** The snapshot after the early write [state.Channel = channel] alone. *)
Definition with_channel (c : youtube.Channel) (s : State) : State :=
  {| Channel := Some c; LiveVideo := LiveVideo s; Videos := Videos s |}.

(** The ways one cycle for [channelId] can go, path by path through
    [refresh]: how it ends, what it does to the snapshot, and which
    fetchers it calls. *)
Inductive cycle (web : Web) (src : youtube.Service) (channelId : string)
  : outcome (option error) -> (State -> State) -> list Call -> Prop :=
| cycle_channel_error (err : error) :
    fetchChannel src channelId = Err err ->
    cycle web src channelId (Returned (Some err)) (fun s => s)
      [Call_fetchChannel channelId]
| cycle_channel_nil :
    fetchChannel src channelId = Ok None ->
    cycle web src channelId (Panicked nil_dereference) (fun s => s)
      [Call_fetchChannel channelId]
| cycle_live_error (c : youtube.Channel) (err : error) :
    fetchChannel src channelId = Ok (Some c) ->
    fetchLiveVideoId web (youtube.Channel_Id c) = Err err ->
    cycle web src channelId (Returned (Some err)) (fun s => s)
      [Call_fetchChannel channelId;
       Call_fetchLiveVideoId (youtube.Channel_Id c)]
| cycle_details_nil (c : youtube.Channel) (liveVideoId : string) :
    fetchChannel src channelId = Ok (Some c) ->
    fetchLiveVideoId web (youtube.Channel_Id c) = Ok liveVideoId ->
    (youtube.Channel_ContentDetails c = None \/
     exists details,
       youtube.Channel_ContentDetails c = Some details /\
       youtube.RelatedPlaylists details = None) ->
    cycle web src channelId (Panicked nil_dereference) (fun s => s)
      [Call_fetchChannel channelId;
       Call_fetchLiveVideoId (youtube.Channel_Id c)]
| cycle_playlist_error (c : youtube.Channel) (liveVideoId uploads : string)
    (details : youtube.ChannelContentDetails) (err : error) :
    fetchChannel src channelId = Ok (Some c) ->
    fetchLiveVideoId web (youtube.Channel_Id c) = Ok liveVideoId ->
    youtube.Channel_ContentDetails c = Some details ->
    youtube.RelatedPlaylists details = Some {| youtube.Uploads := uploads |} ->
    fetchPlaylistItems src uploads = Err err ->
    cycle web src channelId (Returned (Some err)) (fun s => s)
      (first_calls channelId c uploads)
| cycle_item_nil (c : youtube.Channel) (liveVideoId uploads : string)
    (details : youtube.ChannelContentDetails)
    (playlistItems : slice (option youtube.PlaylistItem)) :
    fetchChannel src channelId = Ok (Some c) ->
    fetchLiveVideoId web (youtube.Channel_Id c) = Ok liveVideoId ->
    youtube.Channel_ContentDetails c = Some details ->
    youtube.RelatedPlaylists details = Some {| youtube.Uploads := uploads |} ->
    fetchPlaylistItems src uploads = Ok playlistItems ->
    playlist_video_ids (elems playlistItems) = None ->
    cycle web src channelId (Panicked nil_dereference) (fun s => s)
      (first_calls channelId c uploads)
| cycle_no_candidates (c : youtube.Channel) (uploads liveVideoId : string) :
    candidates web src channelId c uploads liveVideoId [] ->
    cycle web src channelId (Returned None)
      (fun _ => {| Channel := Some c; LiveVideo := None;
                   Videos := make_empty |})
      (first_calls channelId c uploads)
| cycle_videos_error (c : youtube.Channel) (uploads liveVideoId : string)
    (videoIds : list string) (err : error) :
    candidates web src channelId c uploads liveVideoId videoIds ->
    videoIds <> [] ->
    fetchVideos src videoIds = Err err ->
    cycle web src channelId (Returned (Some err)) (with_channel c)
      (first_calls channelId c uploads ++ [Call_fetchVideos videoIds])
| cycle_first_nil (c : youtube.Channel) (uploads liveVideoId : string)
    (videoIds : list string) (videos : slice (option youtube.Video))
    (rest : list (option youtube.Video)) :
    candidates web src channelId c uploads liveVideoId videoIds ->
    videoIds <> [] ->
    fetchVideos src videoIds = Ok videos ->
    elems videos = None :: rest ->
    cycle web src channelId (Panicked nil_dereference) (with_channel c)
      (first_calls channelId c uploads ++ [Call_fetchVideos videoIds])
| cycle_live_first (c : youtube.Channel) (uploads liveVideoId : string)
    (videoIds : list string) (videos : slice (option youtube.Video))
    (v : youtube.Video) (rest : list (option youtube.Video)) :
    candidates web src channelId c uploads liveVideoId videoIds ->
    videoIds <> [] ->
    fetchVideos src videoIds = Ok videos ->
    elems videos = Some v :: rest ->
    youtube.Video_Id v = liveVideoId ->
    cycle web src channelId (Returned None)
      (fun _ => {| Channel := Some c; LiveVideo := Some v;
                   Videos := mk_slice rest |})
      (first_calls channelId c uploads ++ [Call_fetchVideos videoIds])
| cycle_none_live (c : youtube.Channel) (uploads liveVideoId : string)
    (videoIds : list string) (videos : slice (option youtube.Video)) :
    candidates web src channelId c uploads liveVideoId videoIds ->
    videoIds <> [] ->
    fetchVideos src videoIds = Ok videos ->
    (elems videos = [] \/
     exists v rest,
       elems videos = Some v :: rest /\ youtube.Video_Id v <> liveVideoId) ->
    cycle web src channelId (Returned None)
      (fun _ => {| Channel := Some c; LiveVideo := None; Videos := videos |})
      (first_calls channelId c uploads ++ [Call_fetchVideos videoIds]).

(** The world after a cycle that did [k] to the snapshot and made the calls
    [new]. *)
Definition after (k : State -> State) (new : list Call) (w : World) : World :=
  {| state := k (state w); calls := calls w ++ new |}.

(** The live page of [channelId] is requested, received and parsed, and
    the compiled selector finds [node] on it. *)
Definition selects (web : Web) (channelId : string) (node : html.Node)
  : Prop :=
  exists (req : http.Request) (resp : http.Response) (doc : Document web)
         (sel : Selector web),
    http_NewRequest web http.MethodGet (live_url channelId) = Ok req /\
    http_Do web (http.AddCookie req consent_cookie) = Ok resp /\
    html_Parse web (http.Body resp) = Ok doc /\
    cascadia_Parse web "link[rel='canonical']" = Ok sel /\
    cascadia_Query web doc sel = Some node.

(** A pointer as a list of zero or one element. *)
Definition pointee {A} (p : option A) : list (option A) :=
  match p with
  | Some a => [Some a]
  | None => []
  end.

(** ** The polling loop of [main]

    [for { if err := refresh(src, channel); err != nil { log... };
    time.Sleep(time.Minute) }], for as many cycles as there are upstreams in
    the list: the [n]-th element is the outside world as it answers during
    the [n]-th cycle.  A returned error is logged and the loop goes on; a
    panic is not recovered and ends the process.  The sleep between cycles
    is not modelled. *)

Record Entry := { entry_err : error; entry_msg : string }.

Definition refresh_failed (err : error) : Entry :=
  {| entry_err := err; entry_msg := "Unable to refresh state" |}.

Inductive status :=
| Looping
| Crashed (msg : string).

Fixpoint poll (ups : list (Web * youtube.Service)) (channel : string)
    (w : World) (log : list Entry) : status * World * list Entry :=
  match ups with
  | [] => (Looping, w, log)
  | (web, src) :: ups' =>
      match refresh web src channel w with
      | (Returned None, w') => poll ups' channel w' log
      | (Returned (Some err), w') =>
          poll ups' channel w' (log ++ [refresh_failed err])
      | (Panicked msg, w') => (Crashed msg, w', log)
      end
  end.

(** ** Concrete upstreams *)
Module sample.

(** A network on which every step succeeds and the selector finds
    [node]. *)
Definition web (node : option html.Node) : Web :=
  {| Document := unit;
     Selector := unit;
     http_NewRequest := fun m u =>
       Ok {| http.Method := m; http.URL := u; http.Cookies := [] |};
     http_Do := fun _ =>
       Ok {| http.StatusCode := 200; http.Body := "<html></html>" |};
     html_Parse := fun _ => Ok tt;
     cascadia_Parse := fun _ => Ok tt;
     cascadia_Query := fun _ _ => node |}.

Definition canonical (href : string) : html.Node :=
  {| html.Data := "link";
     html.Attr := [ {| html.Key := "rel"; html.Val := "canonical" |};
                    {| html.Key := "href"; html.Val := href |} ] |}.

Definition watch (id : string) : string :=
  ("https://www.youtube.com/watch?v=" ++ id)%string.

(** The channel is live with the video [id]. *)
Definition live (id : string) : Web := web (Some (canonical (watch id))).

(** The channel is not live: its page has no canonical link. *)
Definition offline : Web := web None.

(** The live page cannot be fetched. *)
Definition unreachable : Web :=
  {| Document := unit;
     Selector := unit;
     http_NewRequest := fun m u =>
       Ok {| http.Method := m; http.URL := u; http.Cookies := [] |};
     http_Do := fun _ => Err "dial tcp: i/o timeout";
     html_Parse := fun _ => Ok tt;
     cascadia_Parse := fun _ => Ok tt;
     cascadia_Query := fun _ _ => None |}.

Definition channel : youtube.Channel :=
  {| youtube.Channel_Id := "UC1";
     youtube.Channel_Etag := "c1";
     youtube.Channel_ContentDetails :=
       Some {| youtube.RelatedPlaylists :=
                 Some {| youtube.Uploads := "UU1" |} |} |}.

Definition video (id : string) : youtube.Video :=
  {| youtube.Video_Id := id; youtube.Video_Etag := ("etag-" ++ id)%string |}.

Definition item (id : string) : option youtube.PlaylistItem :=
  Some {| youtube.PlaylistItem_ContentDetails :=
            Some {| youtube.VideoId := id |} |}.

Definition present (ids : list string) : slice (option youtube.Video) :=
  mk_slice (map (fun id => Some (video id)) ids).

(** An API that knows [channels], whose uploads playlist holds
    [playlist], and that answers a video request with [videos]. *)
Definition service (channels : list (option youtube.Channel))
    (playlist : list string)
    (videos : list string -> result (slice (option youtube.Video)))
  : youtube.Service :=
  {| youtube.Channels_List_Do := fun _ _ =>
       Ok {| youtube.Channel_Items := mk_slice channels |};
     youtube.PlaylistItems_List_Do := fun _ _ _ =>
       Ok {| youtube.PlaylistItem_Items := mk_slice (map item playlist) |};
     youtube.Videos_List_Do := fun _ ids =>
       match videos ids with
       | Ok vs => Ok {| youtube.Video_Items := vs |}
       | Err err => Err err
       end |}.

(** An API whose channel lookup and playlist listing may also fail. *)
Definition api (channels : result (list (option youtube.Channel)))
    (playlist : result (list string))
    (videos : list string -> result (slice (option youtube.Video)))
  : youtube.Service :=
  {| youtube.Channels_List_Do := fun _ _ =>
       match channels with
       | Ok cs => Ok {| youtube.Channel_Items := mk_slice cs |}
       | Err err => Err err
       end;
     youtube.PlaylistItems_List_Do := fun _ _ _ =>
       match playlist with
       | Ok ids =>
           Ok {| youtube.PlaylistItem_Items := mk_slice (map item ids) |}
       | Err err => Err err
       end;
     youtube.Videos_List_Do := fun _ ids =>
       match videos ids with
       | Ok vs => Ok {| youtube.Video_Items := vs |}
       | Err err => Err err
       end |}.

Definition get (target : string) : http.Request :=
  {| http.Method := "GET"; http.URL := target; http.Cookies := [] |}.


(** A previous snapshot to start from. *)
Definition old : World :=
  {| state := {| Channel := None;
                 LiveVideo := Some (video "old");
                 Videos := present ["older"] |};
     calls := [] |}.


End sample.

(** * Properties *)

Unset Implicit Arguments.

(** ** The regular expression *)

Lemma lower_not_upper (c : ascii) : is_upper c = false -> lower c = c.
Proof. intros H. unfold lower. now rewrite H. Qed.

Lemma lower_upper_is_lower (c : ascii) :
  is_upper c = true -> is_lower (lower c) = true.
Proof.
  intros H. unfold lower. rewrite H.
  unfold is_upper in H. apply andb_true_iff in H as [H1 H2].
  apply Nat.leb_le in H1, H2.
  unfold is_lower. rewrite nat_ascii_embedding by lia.
  apply andb_true_iff. split; apply Nat.leb_le; lia.
Qed.

Lemma foldEq_lower (r c : ascii) : lower c = lower r -> regexp.foldEq r c = true.
Proof.
  intros H. unfold regexp.foldEq.
  destruct (is_letter r) eqn:Hr.
  - rewrite H, Ascii.eqb_refl. apply orb_true_r.
  - apply orb_false_iff in Hr as [Hu Hl].
    rewrite (lower_not_upper _ Hu) in H.
    destruct (is_upper c) eqn:Hc.
    + apply lower_upper_is_lower in Hc. rewrite H in Hc. congruence.
    + rewrite (lower_not_upper _ Hc) in H. subst c.
      now rewrite Ascii.eqb_refl.
Qed.

Lemma matchLiteralFold_EqualFold (lit P S : string) :
  EqualFoldASCII P lit = true ->
  regexp.matchLiteralFold lit (P ++ S) = Some (P, S).
Proof.
  revert P. induction lit as [|r lit IH]; intros [|c P] H; simpl in H;
    try discriminate.
  - reflexivity.
  - apply andb_true_iff in H as [Hc HP].
    apply Ascii.eqb_eq in Hc.
    simpl. rewrite (foldEq_lower _ _ Hc), (IH _ HP). reflexivity.
Qed.

Lemma takeLine_no_LF (s : string) :
  contains s LF = false -> regexp.takeLine s = s.
Proof.
  induction s as [|c s IH]; intros H; [reflexivity|].
  cbn [contains] in H. apply orb_false_iff in H as [Hc Hs].
  cbn [regexp.takeLine].
  rewrite Ascii.eqb_sym, Hc, (IH Hs). reflexivity.
Qed.

Lemma find_unfold (s : string) :
  regexp.find s =
  match regexp.matchHere s with
  | Some r => Some r
  | None =>
      match s with
      | EmptyString => None
      | String _ rest => regexp.find rest
      end
  end.
Proof. destruct s; reflexivity. Qed.

(** With a match the result has two entries, so [sm[1]] is in range. *)
Lemma FindStringSubmatch_length (s : string) :
  regexp.FindStringSubmatch s <> [] ->
  List.length (regexp.FindStringSubmatch s) = 2.
Proof.
  unfold regexp.FindStringSubmatch.
  destruct (regexp.find s) as [[whole g1]|]; [reflexivity | congruence].
Qed.

(** The expression applied to a watch URL whose suffix has no line feed. *)
Lemma FindStringSubmatch_watch (P S : string) :
  EqualFoldASCII P regexp.literal = true ->
  S <> EmptyString ->
  contains S LF = false ->
  regexp.FindStringSubmatch (P ++ S) = [(P ++ S)%string; S].
Proof.
  intros HP HS HLF. unfold regexp.FindStringSubmatch.
  rewrite find_unfold. unfold regexp.matchHere.
  rewrite (matchLiteralFold_EqualFold _ _ S HP), (takeLine_no_LF _ HLF).
  destruct S; [congruence | reflexivity].
Qed.

(** ** The loop over the attributes *)

Lemma range_Attr_skip (pre rest : list html.Attribute) :
  Forall (fun a => html.Key a <> "href") pre ->
  range_Attr (pre ++ rest) = range_Attr rest.
Proof.
  induction 1 as [|a pre Ha _ IH]; [reflexivity|].
  simpl. apply String.eqb_neq in Ha. now rewrite Ha.
Qed.

Lemma range_Attr_none (attrs : list html.Attribute) :
  (forall a, In a attrs -> html.Key a = "href" ->
             regexp.FindStringSubmatch (html.Val a) = []) ->
  range_Attr attrs = None.
Proof.
  induction attrs as [|a attrs IH]; intros H; [reflexivity|].
  simpl. destruct (String.eqb_spec (html.Key a) "href") as [E|E].
  - rewrite (H a (or_introl eq_refl) E). simpl.
    apply IH. intros b Hb. apply H. now right.
  - apply IH. intros b Hb. apply H. now right.
Qed.

(** ** The resolver *)

Lemma fetchLiveVideoId_steps (web : Web) (channelId : string)
    (req : http.Request) (resp : http.Response) (doc : Document web)
    (sel : Selector web) :
  http_NewRequest web http.MethodGet (live_url channelId) = Ok req ->
  http_Do web (http.AddCookie req consent_cookie) = Ok resp ->
  html_Parse web (http.Body resp) = Ok doc ->
  cascadia_Parse web "link[rel='canonical']" = Ok sel ->
  fetchLiveVideoId web channelId =
  match cascadia_Query web doc sel with
  | Some node =>
      match range_Attr (html.Attr node) with
      | Some id => Ok id
      | None => Ok empty
      end
  | None => Ok empty
  end.
Proof.
  intros H1 H2 H3 H4. unfold fetchLiveVideoId.
  rewrite H1, H2, H3, H4. reflexivity.
Qed.

Ltac invert_results :=
  repeat match goal with
  | H : _ \/ _ |- _ => destruct H
  | H : exists _, _ |- _ => destruct H
  | H : _ /\ _ |- _ => destruct H
  | H : Ok _ = Ok _ |- _ => injection H as H; subst
  | H : Err _ = Err _ |- _ => injection H as H; subst
  | H : Some _ = Some _ |- _ => injection H as H; subst
  | H : ?x = Ok _, H' : ?x = Ok _ |- _ => rewrite H in H'
  | H : ?x = Ok _, H' : ?x = Err _ |- _ => rewrite H in H'
  | H : ?x = Err _, H' : ?x = Err _ |- _ => rewrite H in H'
  end;
  try congruence.

Lemma fetchLiveVideoId_error_iff (web : Web) (channelId : string) (err : error) :
  fetchLiveVideoId web channelId = Err err <->
  resolver_step_fails web channelId err.
Proof.
  unfold fetchLiveVideoId, resolver_step_fails.
  destruct (http_NewRequest web http.MethodGet (live_url channelId))
    as [req|e1] eqn:E1.
  2:{ split; intros H; invert_results; now left. }
  destruct (http_Do web (http.AddCookie req consent_cookie)) as [resp|e2] eqn:E2.
  2:{ split; intros H; invert_results. right. eauto 20. }
  destruct (html_Parse web (http.Body resp)) as [doc|e3] eqn:E3.
  2:{ split; intros H; invert_results. right. eauto 20. }
  destruct (cascadia_Parse web "link[rel='canonical']") as [sel|e4] eqn:E4.
  2:{ split; intros H; invert_results. right. eauto 20. }
  split; intros H; invert_results.
  destruct (cascadia_Query web doc sel) as [node|]; [|discriminate].
  destruct (range_Attr (html.Attr node)); discriminate.
Qed.

(** C8.  On a live page that was requested, received and parsed, with the
    selector compiled, [fetchLiveVideoId] returns the empty string and no
    error when no element matches the selector, and also when the matched
    element has no [href] attribute whose value matches [re].  An error is
    returned only when building the request, sending it, parsing the HTML
    or compiling the selector fails, and it is that step's error. *)
Theorem fetchLiveVideoId_empty_or_step_error (web : Web) (channelId : string) :
  (forall (req : http.Request) (resp : http.Response) (doc : Document web)
          (sel : Selector web),
      http_NewRequest web http.MethodGet (live_url channelId) = Ok req ->
      http_Do web (http.AddCookie req consent_cookie) = Ok resp ->
      html_Parse web (http.Body resp) = Ok doc ->
      cascadia_Parse web "link[rel='canonical']" = Ok sel ->
      (cascadia_Query web doc sel = None ->
       fetchLiveVideoId web channelId = Ok empty) /\
      (forall node,
          cascadia_Query web doc sel = Some node ->
          (forall a, In a (html.Attr node) -> html.Key a = "href" ->
                     regexp.FindStringSubmatch (html.Val a) = []) ->
          fetchLiveVideoId web channelId = Ok empty)) /\
  (forall err,
      fetchLiveVideoId web channelId = Err err ->
      resolver_step_fails web channelId err).
Proof.
  split.
  - intros req resp doc sel H1 H2 H3 H4.
    rewrite (fetchLiveVideoId_steps web channelId req resp doc sel H1 H2 H3 H4).
    split.
    + intros ->. reflexivity.
    + intros node -> Hno. now rewrite (range_Attr_none _ Hno).
  - intros err. apply fetchLiveVideoId_error_iff.
Qed.

Lemma fetchLiveVideoId_empty_or_step_error_witness :
  fetchLiveVideoId sample.offline "UC1" = Ok empty /\
  fetchLiveVideoId
    (sample.web (Some (sample.canonical "https://www.youtube.com/channel/UC1")))
    "UC1" = Ok empty /\
  resolver_step_fails sample.unreachable "UC1" "dial tcp: i/o timeout".
Proof.
  split; [|split].
  - refine (proj1 (proj1 (fetchLiveVideoId_empty_or_step_error
                            sample.offline "UC1") _ _ tt tt
                     eq_refl eq_refl eq_refl eq_refl) eq_refl).
  - refine (proj2 (proj1 (fetchLiveVideoId_empty_or_step_error
                            (sample.web (Some (sample.canonical
                               "https://www.youtube.com/channel/UC1")))
                            "UC1") _ _ tt tt
                     eq_refl eq_refl eq_refl eq_refl) _ eq_refl _).
    intros a [<-|[<-|[]]] Hk; [discriminate Hk | reflexivity].
  - apply (proj2 (fetchLiveVideoId_empty_or_step_error
                    sample.unreachable "UC1")).
    reflexivity.
Defined.

(** C10 as stated fails: the capture stops at a line feed, so a suffix that
    contains one is not returned whole. *)
Lemma fetchLiveVideoId_suffix_counterexample :
  ~ (forall (web : Web) (channelId : string) (req : http.Request)
            (resp : http.Response) (doc : Document web) (sel : Selector web)
            (node : html.Node) (pre post : list html.Attribute)
            (P S : string),
        http_NewRequest web http.MethodGet (live_url channelId) = Ok req ->
        http_Do web (http.AddCookie req consent_cookie) = Ok resp ->
        html_Parse web (http.Body resp) = Ok doc ->
        cascadia_Parse web "link[rel='canonical']" = Ok sel ->
        cascadia_Query web doc sel = Some node ->
        html.Attr node
          = pre ++ {| html.Key := "href"; html.Val := (P ++ S)%string |} :: post ->
        Forall (fun a => html.Key a <> "href") pre ->
        EqualFoldASCII P regexp.literal = true ->
        S <> EmptyString ->
        fetchLiveVideoId web channelId = Ok S).
Proof.
  intros H.
  pose (S := ("abc" ++ String LF "def")%string).
  specialize (H (sample.live S) "UC1"
                {| http.Method := "GET";
                   http.URL := live_url "UC1";
                   http.Cookies := [] |}
                {| http.StatusCode := 200; http.Body := "<html></html>" |}
                tt tt (sample.canonical (sample.watch S))
                [ {| html.Key := "rel"; html.Val := "canonical" |} ] []
                regexp.literal S
                eq_refl eq_refl eq_refl eq_refl eq_refl eq_refl).
  assert (Hpre : Forall (fun a => html.Key a <> "href")
                   [ {| html.Key := "rel"; html.Val := "canonical" |} ]).
  { constructor; [discriminate | constructor]. }
  specialize (H Hpre eq_refl).
  assert (HS : S <> EmptyString) by discriminate.
  specialize (H HS). vm_compute in H. discriminate H.
Qed.

(** C10, amended.  When the canonical link's first [href] attribute is
    [P ++ S], with [P] equal to [https://www.youtube.com/watch?v=] up to the
    case of letters and [S] non-empty and free of line feeds,
    [fetchLiveVideoId] returns all of [S], whatever else [S] contains. *)
Theorem fetchLiveVideoId_returns_suffix
    (web : Web) (channelId : string) (req : http.Request)
    (resp : http.Response) (doc : Document web) (sel : Selector web)
    (node : html.Node) (pre post : list html.Attribute) (P S : string) :
  http_NewRequest web http.MethodGet (live_url channelId) = Ok req ->
  http_Do web (http.AddCookie req consent_cookie) = Ok resp ->
  html_Parse web (http.Body resp) = Ok doc ->
  cascadia_Parse web "link[rel='canonical']" = Ok sel ->
  cascadia_Query web doc sel = Some node ->
  html.Attr node
    = pre ++ {| html.Key := "href"; html.Val := (P ++ S)%string |} :: post ->
  Forall (fun a => html.Key a <> "href") pre ->
  EqualFoldASCII P regexp.literal = true ->
  S <> EmptyString ->
  contains S LF = false ->
  fetchLiveVideoId web channelId = Ok S.
Proof.
  intros H1 H2 H3 H4 HQ HA Hpre HP HS HLF.
  rewrite (fetchLiveVideoId_steps web channelId req resp doc sel H1 H2 H3 H4).
  rewrite HQ, HA, (range_Attr_skip _ _ Hpre).
  cbn [range_Attr html.Key html.Val]. rewrite String.eqb_refl.
  rewrite (FindStringSubmatch_watch P S HP HS HLF). reflexivity.
Qed.

Lemma fetchLiveVideoId_returns_suffix_witness :
  fetchLiveVideoId
    (sample.web (Some (sample.canonical
       "HTTPS://www.YouTube.com/watch?v=dQw4w9WgXcQ&t=42s")))
    "UC1" = Ok "dQw4w9WgXcQ&t=42s".
Proof.
  refine (fetchLiveVideoId_returns_suffix
            (sample.web (Some (sample.canonical
               "HTTPS://www.YouTube.com/watch?v=dQw4w9WgXcQ&t=42s")))
            "UC1" _ _ tt tt _
            [ {| html.Key := "rel"; html.Val := "canonical" |} ] []
            "HTTPS://www.YouTube.com/watch?v=" "dQw4w9WgXcQ&t=42s"
            eq_refl eq_refl eq_refl eq_refl eq_refl eq_refl _ eq_refl _ eq_refl).
  - constructor; [discriminate | constructor].
  - discriminate.
Defined.

(** ** The orchestrator, path by path *)

Lemma range_playlistItems_run (items : list (option youtube.PlaylistItem)) :
  forall (videoIds : list string) (w : World),
    range_playlistItems items videoIds w =
    match playlist_video_ids items with
    | Some ids => (Returned (videoIds ++ ids), w)
    | None => (Panicked nil_dereference, w)
    end.
Proof.
  induction items as [|[item|] items IH]; intros videoIds w; simpl.
  - now rewrite app_nil_r.
  - unfold bind at 1. simpl.
    destruct (youtube.PlaylistItem_ContentDetails item) as [details|]; simpl.
    + unfold bind at 1. simpl. rewrite IH.
      destruct (playlist_video_ids items) as [ids|]; [|reflexivity].
      now rewrite <- app_assoc.
    + reflexivity.
  - reflexivity.
Qed.

Lemma length_eqb_0_cons {A} (x : A) (l : list A) :
  (List.length (x :: l) =? 0)%nat = false.
Proof. reflexivity. Qed.

Ltac step_refresh :=
  repeat first
    [ progress unfold bind, invoke, deref, ret, panic, modify, set_Channel,
        set_LiveVideo, set_Videos, partition, index, slice_from, len, after,
        first_calls, with_channel
    | progress cbn [state calls fst snd youtube.Uploads List.length nth_error
                    Nat.ltb Nat.leb skipn]
    | rewrite range_playlistItems_run
    | match goal with
      | H : ?x = _ |- context [match ?x with _ => _ end] => rewrite H
      | H : elems ?v = _ |- context [elems ?v] => rewrite H
      | |- context [elems (mk_slice ?l)] =>
          change (elems (mk_slice l)) with l
      | |- context [(if String.eqb ?l empty then [] else [] ++ [?l]) ++ ?ids] =>
          change ((if String.eqb l empty then [] else [] ++ [l]) ++ ids)
            with (candidate_ids l ids)
      | H : ?ids = candidate_ids _ _ |- _ => rewrite <- H
      | H : ?ids <> [] |- _ => is_var ids; destruct ids; [congruence|]
      | |- context [(List.length (_ :: _) =? 0)%nat] =>
          rewrite length_eqb_0_cons
      end ].

Lemma cycle_run (web : Web) (src : youtube.Service) (channelId : string)
    (r : outcome (option error)) (k : State -> State) (new : list Call) :
  cycle web src channelId r k new ->
  forall w, refresh web src channelId w = (r, after k new w).
Proof.
  destruct 1; intros w;
    repeat match goal with
    | H : candidates _ _ _ _ _ _ _ |- _ =>
        destruct H as (details & items & ids & Hc & Hl & Hd & Hr & Hp & Hi & E)
    | H : _ \/ _ |- _ => destruct H
    | H : exists _, _ |- _ => destruct H
    | H : _ /\ _ |- _ => destruct H
    end.
  all: try match goal with
           | H : elems ?v = _ :: _ |- _ =>
               let l := fresh "l" in
               destruct v as [|l]; [discriminate H|];
               cbn [elems] in H; subst l
           end.
  all: try match goal with
           | H : youtube.Video_Id _ = _ |- _ => apply String.eqb_eq in H
           | H : youtube.Video_Id _ <> _ |- _ => apply String.eqb_neq in H
           end.
  all: unfold refresh; step_refresh.
  all: cbn [List.length Nat.eqb Channel LiveVideo Videos fst snd state calls];
    rewrite <- ?app_assoc; reflexivity.
Qed.

(** Every cycle goes one of these ways. *)
Lemma cycle_total (web : Web) (src : youtube.Service) (channelId : string) :
  exists r k new, cycle web src channelId r k new.
Proof.
  destruct (fetchChannel src channelId) as [[c|]|err] eqn:Hc.
  2:{ do 3 eexists. eapply cycle_channel_nil; eauto. }
  2:{ do 3 eexists. eapply cycle_channel_error; eauto. }
  destruct (fetchLiveVideoId web (youtube.Channel_Id c))
    as [liveVideoId|err] eqn:Hl.
  2:{ do 3 eexists. eapply cycle_live_error; eauto. }
  destruct (youtube.Channel_ContentDetails c) as [details|] eqn:Hd.
  2:{ do 3 eexists. eapply cycle_details_nil; eauto. }
  destruct (youtube.RelatedPlaylists details) as [[uploads]|] eqn:Hr.
  2:{ do 3 eexists. eapply cycle_details_nil; eauto. }
  destruct (fetchPlaylistItems src uploads) as [items|err] eqn:Hp.
  2:{ do 3 eexists. eapply cycle_playlist_error; eauto. }
  destruct (playlist_video_ids (elems items)) as [ids|] eqn:Hi.
  2:{ do 3 eexists. eapply cycle_item_nil; eauto. }
  assert (Hcand : candidates web src channelId c uploads liveVideoId
                    (candidate_ids liveVideoId ids)).
  { exists details, items, ids. auto 10. }
  destruct (candidate_ids liveVideoId ids) as [|id videoIds] eqn:E.
  { do 3 eexists. eapply cycle_no_candidates; eauto. }
  assert (Hne : id :: videoIds <> []) by discriminate.
  destruct (fetchVideos src (id :: videoIds)) as [videos|err] eqn:Hv.
  2:{ do 3 eexists. eapply cycle_videos_error; eauto. }
  destruct (elems videos) as [|[v|] rest] eqn:Hvs.
  - do 3 eexists. eapply cycle_none_live; eauto.
  - destruct (String.eqb_spec (youtube.Video_Id v) liveVideoId) as [Ev|Ev].
    + do 3 eexists. eapply cycle_live_first; eauto.
    + do 3 eexists. eapply cycle_none_live; eauto.
  - do 3 eexists. eapply cycle_first_nil; eauto.
Qed.

(** [refresh] never reads the snapshot: its outcome and calls depend on the
    upstream alone, and so does what it does to the snapshot. *)
Lemma refresh_cycle (web : Web) (src : youtube.Service) (channelId : string) :
  exists r k new,
    cycle web src channelId r k new /\
    forall w, refresh web src channelId w = (r, after k new w).
Proof.
  destruct (cycle_total web src channelId) as (r & k & new & H).
  exists r, k, new. split; [exact H | exact (cycle_run _ _ _ _ _ _ H)].
Qed.

Lemma after_state (k : State -> State) (new : list Call) (w : World) :
  state (after k new w) = k (state w).
Proof. reflexivity. Qed.

Lemma video_ids_In (v : youtube.Video) (l : list (option youtube.Video)) :
  In (Some v) l -> In (youtube.Video_Id v) (video_ids l).
Proof.
  induction l as [|[u|] l IH]; simpl; intros H.
  - contradiction.
  - destruct H as [H|H]; [injection H as ->; now left | right; auto].
  - destruct H as [H|H]; [discriminate | auto].
Qed.

Lemma candidates_live_nonempty (web : Web) (src : youtube.Service)
    (channelId : string) (c : youtube.Channel) (uploads liveVideoId : string)
    (videoIds : list string) :
  candidates web src channelId c uploads liveVideoId videoIds ->
  liveVideoId <> empty ->
  videoIds <> [].
Proof.
  intros (details & items & ids & _ & _ & _ & _ & _ & _ & ->) Hlive.
  unfold candidate_ids. apply String.eqb_neq in Hlive. rewrite Hlive.
  discriminate.
Qed.

(** ** The claims about [refresh] *)

(** C1 as stated fails: when the batched video fetch fails, [refresh]
    returns the error after it has already written [state.Channel]. *)
Lemma refresh_error_snapshot_counterexample :
  ~ (forall (web : Web) (src : youtube.Service) (channelId : string)
            (w w' : World) (err : error),
        refresh web src channelId w = (Returned (Some err), w') ->
        state w' = state w).
Proof.
  intros H.
  specialize (H (sample.live "X")
                (sample.service [Some sample.channel] ["A"; "B"]
                   (fun _ => Err "quotaExceeded"))
                "UC1" sample.old _ "quotaExceeded" eq_refl).
  discriminate H.
Qed.

(** C1, amended.  A cycle in which a fetch fails returns that fetch's
    error.  When it is the channel fetch, the live-id resolution or the
    playlist fetch, the snapshot is exactly what it was before the call.
    When it is the batched video fetch, [liveVideo] and [videos] are what
    they were and [channel] is the freshly fetched record. *)
Theorem refresh_error_snapshot (web : Web) (src : youtube.Service)
    (channelId : string) (w : World) (err : error) :
  (fetchChannel src channelId = Err err ->
   refresh web src channelId w
     = (Returned (Some err),
        {| state := state w;
           calls := calls w ++ [Call_fetchChannel channelId] |})) /\
  (forall c,
      fetchChannel src channelId = Ok (Some c) ->
      fetchLiveVideoId web (youtube.Channel_Id c) = Err err ->
      refresh web src channelId w
        = (Returned (Some err),
           {| state := state w;
              calls := calls w ++
                [Call_fetchChannel channelId;
                 Call_fetchLiveVideoId (youtube.Channel_Id c)] |})) /\
  (forall c liveVideoId details uploads,
      fetchChannel src channelId = Ok (Some c) ->
      fetchLiveVideoId web (youtube.Channel_Id c) = Ok liveVideoId ->
      youtube.Channel_ContentDetails c = Some details ->
      youtube.RelatedPlaylists details
        = Some {| youtube.Uploads := uploads |} ->
      fetchPlaylistItems src uploads = Err err ->
      refresh web src channelId w
        = (Returned (Some err),
           {| state := state w;
              calls := calls w ++ first_calls channelId c uploads |})) /\
  (forall c uploads liveVideoId videoIds,
      candidates web src channelId c uploads liveVideoId videoIds ->
      videoIds <> [] ->
      fetchVideos src videoIds = Err err ->
      refresh web src channelId w
        = (Returned (Some err),
           {| state := {| Channel := Some c;
                          LiveVideo := LiveVideo (state w);
                          Videos := Videos (state w) |};
              calls := calls w ++ first_calls channelId c uploads
                         ++ [Call_fetchVideos videoIds] |})).
Proof.
  repeat split.
  - intros Hc.
    erewrite cycle_run by (eapply cycle_channel_error; eassumption).
    reflexivity.
  - intros c Hc Hl.
    erewrite cycle_run by (eapply cycle_live_error; eassumption).
    reflexivity.
  - intros c liveVideoId details uploads Hc Hl Hd Hr Hp.
    erewrite cycle_run by (eapply cycle_playlist_error; eassumption).
    reflexivity.
  - intros c uploads liveVideoId videoIds Hcand Hne Hv.
    erewrite cycle_run by (eapply cycle_videos_error; eassumption).
    unfold after, with_channel. now rewrite app_assoc.
Qed.

Lemma refresh_error_snapshot_witness :
  let quota := sample.api (Ok [Some sample.channel]) (Ok ["A"; "B"])
                 (fun _ => Err "quotaExceeded") in
  let down := sample.api (Err "backendError") (Ok ["A"]) (fun _ => Ok nil_slice) in
  let locked := sample.api (Ok [Some sample.channel]) (Err "playlistNotFound")
                  (fun _ => Ok nil_slice) in
  refresh (sample.live "X") down "UC1" sample.old
    = (Returned (Some "backendError"),
       {| state := state sample.old; calls := [Call_fetchChannel "UC1"] |}) /\
  refresh sample.unreachable quota "UC1" sample.old
    = (Returned (Some "dial tcp: i/o timeout"),
       {| state := state sample.old;
          calls := [Call_fetchChannel "UC1"; Call_fetchLiveVideoId "UC1"] |}) /\
  refresh (sample.live "X") locked "UC1" sample.old
    = (Returned (Some "playlistNotFound"),
       {| state := state sample.old;
          calls := first_calls "UC1" sample.channel "UU1" |}) /\
  refresh (sample.live "X") quota "UC1" sample.old
    = (Returned (Some "quotaExceeded"),
       {| state := {| Channel := Some sample.channel;
                      LiveVideo := LiveVideo (state sample.old);
                      Videos := Videos (state sample.old) |};
          calls := first_calls "UC1" sample.channel "UU1"
                     ++ [Call_fetchVideos ["X"; "A"; "B"]] |}).
Proof.
  intros quota down locked.
  split; [|split; [|split]].
  - exact (proj1 (refresh_error_snapshot (sample.live "X") down "UC1"
                    sample.old "backendError") eq_refl).
  - exact (proj1 (proj2 (refresh_error_snapshot sample.unreachable quota "UC1"
                           sample.old "dial tcp: i/o timeout"))
             sample.channel eq_refl eq_refl).
  - exact (proj1 (proj2 (proj2 (refresh_error_snapshot (sample.live "X") locked
                                  "UC1" sample.old "playlistNotFound")))
             sample.channel "X"
             {| youtube.RelatedPlaylists :=
                  Some {| youtube.Uploads := "UU1" |} |}
             "UU1" eq_refl eq_refl eq_refl eq_refl eq_refl).
  - refine (proj2 (proj2 (proj2 (refresh_error_snapshot (sample.live "X") quota
                                   "UC1" sample.old "quotaExceeded")))
              sample.channel "UU1" "X" ["X"; "A"; "B"] _ _ eq_refl).
    + eexists _, _, ["A"; "B"]. repeat split; reflexivity.
    + discriminate.
Defined.

(** Conversely, an error returned by [refresh] is the error of one of the
    four fetches. *)
Lemma refresh_error_inv (web : Web) (src : youtube.Service)
    (channelId : string) (w w' : World) (err : error) :
  refresh web src channelId w = (Returned (Some err), w') ->
  (state w' = state w /\
   (fetchChannel src channelId = Err err \/
    exists c,
      fetchChannel src channelId = Ok (Some c) /\
      (fetchLiveVideoId web (youtube.Channel_Id c) = Err err \/
       exists details uploads,
         youtube.Channel_ContentDetails c = Some details /\
         youtube.RelatedPlaylists details
           = Some {| youtube.Uploads := uploads |} /\
         fetchPlaylistItems src uploads = Err err))) \/
  (exists c uploads liveVideoId videoIds,
     candidates web src channelId c uploads liveVideoId videoIds /\
     fetchVideos src videoIds = Err err /\
     state w' = {| Channel := Some c;
                   LiveVideo := LiveVideo (state w);
                   Videos := Videos (state w) |}).
Proof.
  intros H.
  destruct (refresh_cycle web src channelId) as (r & k & new & Hcyc & Hrun).
  rewrite Hrun in H. injection H as -> <-.
  inversion Hcyc; subst.
  - left. split; [reflexivity | now left].
  - left. split; [reflexivity|]. right. eauto.
  - left. split; [reflexivity|]. right. eauto 8.
  - right. eauto 8.
Qed.

(** C2, on the code.  When the channel lookup succeeds with zero items,
    [fetchChannel] returns a nil channel and no error, and [refresh] then
    reads [channel.Id] through it: the cycle ends in a nil pointer
    dereference instead of returning an error. *)
Theorem refresh_channel_not_found_panics (web : Web) (src : youtube.Service)
    (channelId : string) (resp : youtube.ChannelListResponse) (w : World) :
  youtube.Channels_List_Do src ["contentDetails"; "snippet"; "statistics"]
    channelId = Ok resp ->
  elems (youtube.Channel_Items resp) = [] ->
  fetchChannel src channelId = Ok None /\
  refresh web src channelId w
    = (Panicked nil_dereference,
       {| state := state w;
          calls := calls w ++ [Call_fetchChannel channelId] |}).
Proof.
  intros Hdo Hitems.
  assert (Hc : fetchChannel src channelId = Ok None).
  { unfold fetchChannel, len. now rewrite Hdo, Hitems. }
  split; [exact Hc|].
  exact (cycle_run _ _ _ _ _ _ (@cycle_channel_nil web src channelId Hc) w).
Qed.

Lemma refresh_channel_not_found_panics_witness :
  let src := sample.service [] ["A"; "B"] (fun ids => Ok (sample.present ids)) in
  fetchChannel src "UCnone" = Ok None /\
  refresh sample.offline src "UCnone" sample.old
    = (Panicked nil_dereference,
       {| state := state sample.old;
          calls := [Call_fetchChannel "UCnone"] |}).
Proof.
  intros src.
  exact (refresh_channel_not_found_panics sample.offline src "UCnone"
           {| youtube.Channel_Items := mk_slice [] |} sample.old
           eq_refl eq_refl).
Defined.

(** C3 as stated fails: only the first returned video is compared with the
    live id, so a response that carries the live video twice leaves one copy
    in [videos]. *)
Lemma refresh_live_not_in_videos_counterexample :
  ~ (forall (web : Web) (src : youtube.Service) (channelId : string)
            (w w' : World) (live v : youtube.Video),
        refresh web src channelId w = (Returned None, w') ->
        LiveVideo (state w') = Some live ->
        In (Some v) (elems (Videos (state w'))) ->
        youtube.Video_Id v <> youtube.Video_Id live).
Proof.
  intros H.
  specialize (H (sample.live "X")
                (sample.service [Some sample.channel] ["X"; "A"]
                   (fun ids => Ok (sample.present ids)))
                "UC1" sample.old _ (sample.video "X") (sample.video "X")
                eq_refl eq_refl (or_introl eq_refl)).
  apply H. reflexivity.
Qed.

(** C3, amended.  After every successful cycle in which [liveVideo] is not
    nil, no video in [videos] has the id of [liveVideo], provided the id of
    the first video of that cycle's batch response does not occur again
    later in the response. *)
Theorem refresh_live_not_in_videos (web : Web) (src : youtube.Service)
    (channelId : string) (w w' : World) (live v : youtube.Video) :
  (forall c uploads liveVideoId videoIds videos first rest,
      candidates web src channelId c uploads liveVideoId videoIds ->
      fetchVideos src videoIds = Ok videos ->
      elems videos = Some first :: rest ->
      ~ In (youtube.Video_Id first) (video_ids rest)) ->
  refresh web src channelId w = (Returned None, w') ->
  LiveVideo (state w') = Some live ->
  In (Some v) (elems (Videos (state w'))) ->
  youtube.Video_Id v <> youtube.Video_Id live.
Proof.
  intros Hfirst H Hlive Hin.
  destruct (refresh_cycle web src channelId) as (r & k & new & Hcyc & Hrun).
  rewrite Hrun in H. injection H as -> <-.
  rewrite after_state in Hlive, Hin.
  inversion Hcyc; subst; cbn [LiveVideo Videos elems] in Hlive, Hin;
    try discriminate.
  injection Hlive as ->.
  match goal with
  | Hc : candidates _ _ _ _ _ _ _, Hv : fetchVideos _ _ = Ok ?videos,
    He : elems ?videos = _ |- _ =>
      pose proof (Hfirst _ _ _ _ _ _ _ Hc Hv He) as Hnotin
  end.
  intros E. apply Hnotin. rewrite <- E. now apply video_ids_In.
Qed.

Lemma refresh_live_not_in_videos_witness :
  youtube.Video_Id (sample.video "A") <> youtube.Video_Id (sample.video "X").
Proof.
  refine (refresh_live_not_in_videos (sample.live "X")
            (sample.service [Some sample.channel] ["A"; "B"]
               (fun _ => Ok (sample.present ["X"; "A"; "A"])))
            "UC1" sample.old _ (sample.video "X") (sample.video "A")
            _ eq_refl eq_refl (or_introl eq_refl)).
  intros c uploads liveVideoId videoIds videos first rest _ Hv He.
  injection Hv as <-. injection He as <- <-.
  cbn. intros [H|[H|[]]]; discriminate H.
Defined.

(** C4.  In a cycle whose batched video fetch returns a non-empty list, the
    cycle succeeds and the live video is decided by position: when the id of
    the first returned video equals the resolved live id, that video becomes
    [liveVideo] and [videos] is the rest of the list; otherwise [liveVideo]
    is nil and [videos] is the whole list, wherever else the live id may
    appear in it.  [channel] is the fetched record in both cases. *)
Theorem refresh_partition_positional (web : Web) (src : youtube.Service)
    (channelId : string) (c : youtube.Channel) (uploads liveVideoId : string)
    (videoIds : list string) (videos : slice (option youtube.Video))
    (first : youtube.Video) (rest : list (option youtube.Video)) (w : World) :
  candidates web src channelId c uploads liveVideoId videoIds ->
  videoIds <> [] ->
  fetchVideos src videoIds = Ok videos ->
  elems videos = Some first :: rest ->
  exists w',
    refresh web src channelId w = (Returned None, w') /\
    Channel (state w') = Some c /\
    (youtube.Video_Id first = liveVideoId ->
     LiveVideo (state w') = Some first /\
     Videos (state w') = mk_slice rest) /\
    (youtube.Video_Id first <> liveVideoId ->
     LiveVideo (state w') = None /\
     Videos (state w') = videos).
Proof.
  intros Hcand Hne Hv Hvs.
  destruct (String.eqb_spec (youtube.Video_Id first) liveVideoId) as [E|E].
  - eexists. split.
    + apply cycle_run. eapply cycle_live_first; eauto.
    + cbn [after state Channel LiveVideo Videos]. intuition congruence.
  - eexists. split.
    + apply cycle_run. eapply cycle_none_live; eauto.
    + cbn [after state Channel LiveVideo Videos]. intuition congruence.
Qed.

(** The scenario of C4: live id X, playlist [A, B], response [A, X, B]. *)
Lemma refresh_partition_positional_witness :
  exists w',
    refresh (sample.live "X")
      (sample.service [Some sample.channel] ["A"; "B"]
         (fun _ => Ok (sample.present ["A"; "X"; "B"])))
      "UC1" sample.old = (Returned None, w') /\
    Channel (state w') = Some sample.channel /\
    (youtube.Video_Id (sample.video "A") = "X" ->
     LiveVideo (state w') = Some (sample.video "A") /\
     Videos (state w') = sample.present ["X"; "B"]) /\
    (youtube.Video_Id (sample.video "A") <> "X" ->
     LiveVideo (state w') = None /\
     Videos (state w') = sample.present ["A"; "X"; "B"]).
Proof.
  refine (refresh_partition_positional (sample.live "X")
            (sample.service [Some sample.channel] ["A"; "B"]
               (fun _ => Ok (sample.present ["A"; "X"; "B"])))
            "UC1" sample.channel "UU1" "X" ["X"; "A"; "B"]
            (sample.present ["A"; "X"; "B"]) (sample.video "A")
            [Some (sample.video "X"); Some (sample.video "B")] sample.old
            _ _ eq_refl eq_refl).
  - eexists _, _, ["A"; "B"]. repeat split; reflexivity.
  - discriminate.
Defined.

(** C5.  When the resolver returns the empty string and the uploads
    playlist has no items, the cycle succeeds with [videos] an empty,
    non-nil sequence, [liveVideo] nil and [channel] the fetched record, and
    the calls it makes are the three first fetchers: [fetchVideos] is not
    among them. *)
Theorem refresh_no_candidates (web : Web) (src : youtube.Service)
    (channelId : string) (c : youtube.Channel)
    (details : youtube.ChannelContentDetails) (uploads : string)
    (playlistItems : slice (option youtube.PlaylistItem)) (w : World) :
  fetchChannel src channelId = Ok (Some c) ->
  fetchLiveVideoId web (youtube.Channel_Id c) = Ok empty ->
  youtube.Channel_ContentDetails c = Some details ->
  youtube.RelatedPlaylists details = Some {| youtube.Uploads := uploads |} ->
  fetchPlaylistItems src uploads = Ok playlistItems ->
  elems playlistItems = [] ->
  refresh web src channelId w
    = (Returned None,
       {| state := {| Channel := Some c; LiveVideo := None;
                      Videos := mk_slice [] |};
          calls := calls w ++ first_calls channelId c uploads |}) /\
  forall videoIds,
    ~ In (Call_fetchVideos videoIds) (first_calls channelId c uploads).
Proof.
  intros Hc Hl Hd Hr Hp Hi. split.
  - assert (Hcand : candidates web src channelId c uploads empty []).
    { exists details, playlistItems, []. rewrite Hi. auto 10. }
    exact (cycle_run _ _ _ _ _ _ (cycle_no_candidates Hcand) w).
  - intros videoIds [H|[H|[H|[]]]]; discriminate H.
Qed.

Lemma refresh_no_candidates_witness :
  let src := sample.service [Some sample.channel] []
               (fun ids => Ok (sample.present ids)) in
  refresh sample.offline src "UC1" sample.old
    = (Returned None,
       {| state := {| Channel := Some sample.channel; LiveVideo := None;
                      Videos := mk_slice [] |};
          calls := [Call_fetchChannel "UC1"; Call_fetchLiveVideoId "UC1";
                    Call_fetchPlaylistItems "UU1"] |}) /\
  forall videoIds,
    ~ In (Call_fetchVideos videoIds) (first_calls "UC1" sample.channel "UU1").
Proof.
  intros src.
  exact (refresh_no_candidates sample.offline src "UC1" sample.channel
           {| youtube.RelatedPlaylists := Some {| youtube.Uploads := "UU1" |} |}
           "UU1" (mk_slice []) sample.old
           eq_refl eq_refl eq_refl eq_refl eq_refl eq_refl).
Defined.

(** What a cycle does to the snapshot does not change when done twice. *)
Lemma cycle_idempotent (web : Web) (src : youtube.Service) (channelId : string)
    (r : outcome (option error)) (k : State -> State) (new : list Call) :
  cycle web src channelId r k new -> forall s, k (k s) = k s.
Proof. destruct 1; reflexivity. Qed.

(** C6.  Two cycles in a row against the same upstream end the same way,
    and the snapshot after the second is the snapshot after the first. *)
Theorem refresh_twice_same_snapshot (web : Web) (src : youtube.Service)
    (channelId : string) (w : World) :
  let first := refresh web src channelId w in
  let second := refresh web src channelId (snd first) in
  fst second = fst first /\ state (snd second) = state (snd first).
Proof.
  destruct (refresh_cycle web src channelId) as (r & k & new & Hcyc & Hrun).
  cbn zeta. rewrite !Hrun. cbn [fst snd]. rewrite !after_state.
  split; [reflexivity | exact (cycle_idempotent _ _ _ _ _ _ Hcyc (state w))].
Qed.

(** C9.  When a non-empty live id was resolved and the batched video fetch
    succeeds with an empty list, the cycle succeeds with [liveVideo] nil and
    [videos] that empty list: the first element is never read. *)
Theorem refresh_empty_batch (web : Web) (src : youtube.Service)
    (channelId : string) (c : youtube.Channel) (uploads liveVideoId : string)
    (videoIds : list string) (videos : slice (option youtube.Video))
    (w : World) :
  candidates web src channelId c uploads liveVideoId videoIds ->
  liveVideoId <> empty ->
  fetchVideos src videoIds = Ok videos ->
  elems videos = [] ->
  refresh web src channelId w
    = (Returned None,
       {| state := {| Channel := Some c; LiveVideo := None;
                      Videos := videos |};
          calls := calls w ++ first_calls channelId c uploads
                     ++ [Call_fetchVideos videoIds] |}).
Proof.
  intros Hcand Hlive Hv Hvs.
  pose proof (candidates_live_nonempty _ _ _ _ _ _ _ Hcand Hlive) as Hne.
  rewrite (cycle_run _ _ _ _ _ _
             (cycle_none_live Hcand Hne Hv (or_introl Hvs)) w).
  unfold after. now rewrite app_assoc.
Qed.

Lemma refresh_empty_batch_witness :
  let src := sample.service [Some sample.channel] ["A"]
               (fun _ => Ok nil_slice) in
  refresh (sample.live "X") src "UC1" sample.old
    = (Returned None,
       {| state := {| Channel := Some sample.channel; LiveVideo := None;
                      Videos := nil_slice |};
          calls := [Call_fetchChannel "UC1"; Call_fetchLiveVideoId "UC1";
                    Call_fetchPlaylistItems "UU1";
                    Call_fetchVideos ["X"; "A"]] |}).
Proof.
  intros src.
  refine (refresh_empty_batch (sample.live "X") src "UC1" sample.channel
            "UU1" "X" ["X"; "A"] nil_slice sample.old _ _ eq_refl eq_refl).
  - eexists _, _, ["A"]. repeat split; reflexivity.
  - discriminate.
Defined.

(** ** The HTTP handler *)

Lemma Get_content_type (h : server.Header) (v : string) :
  server.Get (server.Set_ h "content-type" v) "content-type" = v.
Proof. reflexivity. Qed.

(** * Further properties *)

(** ** What the expression can return *)

Lemma strip_prefix_app (p s rest : string) :
  strip_prefix p s = Some rest -> s = (p ++ rest)%string.
Proof.
  revert s. induction p as [|a p IH]; intros [|b s] H; simpl in H;
    try discriminate.
  - now injection H as <-.
  - now injection H as <-.
  - destruct (Ascii.eqb_spec a b) as [<-|]; [|discriminate].
    simpl. f_equal. now apply IH.
Qed.

Lemma matchRuneFold_app (r : ascii) (s m rest : string) :
  regexp.matchRuneFold r s = Some (m, rest) ->
  s = (m ++ rest)%string /\ m <> EmptyString.
Proof.
  unfold regexp.matchRuneFold. destruct s as [|c s]; [discriminate|].
  destruct (regexp.foldEq r c).
  - intros H. injection H as <- <-. split; [reflexivity | discriminate].
  - unfold regexp.extraFold.
    destruct (Ascii.eqb (lower r) "s").
    + destruct (strip_prefix regexp.long_s (String c s)) as [rest'|] eqn:E;
        [|discriminate].
      intros H. injection H as <- <-.
      split; [now apply strip_prefix_app | discriminate].
    + destruct (Ascii.eqb (lower r) "k"); [|discriminate].
      destruct (strip_prefix regexp.kelvin (String c s)) as [rest'|] eqn:E;
        [|discriminate].
      intros H. injection H as <- <-.
      split; [now apply strip_prefix_app | discriminate].
Qed.

Lemma string_app_assoc (a b c : string) :
  ((a ++ b) ++ c = a ++ (b ++ c))%string.
Proof. induction a as [|x a IH]; simpl; [reflexivity | now rewrite IH]. Qed.

Lemma string_app_length (a b : string) :
  String.length (a ++ b) = String.length a + String.length b.
Proof. induction a as [|x a IH]; simpl; [reflexivity | now rewrite IH]. Qed.

Lemma matchLiteralFold_app (lit s m rest : string) :
  regexp.matchLiteralFold lit s = Some (m, rest) ->
  s = (m ++ rest)%string /\ String.length lit <= String.length m.
Proof.
  revert s m rest. induction lit as [|r lit IH]; intros s m rest H; simpl in H.
  - injection H as <- <-. split; [reflexivity | apply Nat.le_refl].
  - destruct (regexp.matchRuneFold r s) as [[m1 rest1]|] eqn:E1;
      [|discriminate].
    destruct (regexp.matchLiteralFold lit rest1) as [[m2 rest2]|] eqn:E2;
      [|discriminate].
    injection H as <- <-.
    apply matchRuneFold_app in E1 as [-> Hm1].
    apply IH in E2 as [-> Hlen].
    split; [now rewrite string_app_assoc|].
    rewrite string_app_length. simpl.
    destruct m1; [congruence | simpl; lia].
Qed.

Lemma takeLine_spec (s : string) :
  contains (regexp.takeLine s) LF = false /\
  exists post,
    s = (regexp.takeLine s ++ post)%string /\
    (post = EmptyString \/ exists post', post = String LF post').
Proof.
  induction s as [|c s [IH1 (post & IH2 & IH3)]].
  - split; [reflexivity|]. exists EmptyString. split; [reflexivity | now left].
  - cbn [regexp.takeLine].
    destruct (Ascii.eqb_spec c LF) as [->|Hc].
    + split; [reflexivity|]. exists (String LF s).
      split; [reflexivity | right; now exists s].
    + split.
      * cbn [contains]. apply orb_false_iff. split; [|exact IH1].
        apply Ascii.eqb_neq. congruence.
      * exists post. split; [|exact IH3]. simpl. now rewrite <- IH2.
Qed.

Lemma find_spec (s whole g : string) :
  regexp.find s = Some (whole, g) ->
  exists pre suffix,
    s = (pre ++ suffix)%string /\ regexp.matchHere suffix = Some (whole, g).
Proof.
  induction s as [|c s IH]; rewrite find_unfold.
  - destruct (regexp.matchHere EmptyString) as [r|] eqn:E; [|discriminate].
    intros H. injection H as ->. now exists EmptyString, EmptyString.
  - destruct (regexp.matchHere (String c s)) as [r|] eqn:E.
    + intros H. injection H as ->. now exists EmptyString, (String c s).
    + intros H. destruct (IH H) as (pre & suffix & -> & Hm).
      now exists (String c pre), suffix.
Qed.

(** The shape of every match: some text, then text [m] that matches the
    literal under case folding, then group 1, which is not empty, has no
    line feed and runs to the end of the line. *)
Lemma FindStringSubmatch_shape (s whole g : string) :
  regexp.FindStringSubmatch s = [whole; g] ->
  exists pre m post,
    s = (pre ++ m ++ g ++ post)%string /\
    whole = (m ++ g)%string /\
    regexp.matchLiteralFold regexp.literal (m ++ g ++ post)
      = Some (m, (g ++ post)%string) /\
    g <> EmptyString /\
    contains g LF = false /\
    (post = EmptyString \/ exists post', post = String LF post').
Proof.
  unfold regexp.FindStringSubmatch.
  destruct (regexp.find s) as [[whole' g']|] eqn:E; [|discriminate].
  intros H. injection H as -> ->.
  apply find_spec in E as (pre & suffix & -> & Hm).
  unfold regexp.matchHere in Hm.
  destruct (regexp.matchLiteralFold regexp.literal suffix)
    as [[m rest]|] eqn:El; [|discriminate].
  destruct (takeLine_spec rest) as (Hno & post & Hrest & Hpost).
  destruct (regexp.takeLine rest) as [|c g0] eqn:Et; [discriminate|].
  injection Hm as <- <-.
  pose proof (matchLiteralFold_app _ _ _ _ El) as [-> _].
  exists pre, m, post. rewrite <- Hrest.
  repeat split; try assumption. discriminate.
Qed.

Lemma range_Attr_some (attrs : list html.Attribute) (id : string) :
  range_Attr attrs = Some id ->
  exists a whole,
    In a attrs /\ html.Key a = "href" /\
    regexp.FindStringSubmatch (html.Val a) = [whole; id].
Proof.
  induction attrs as [|a attrs IH]; [discriminate|].
  cbn [range_Attr].
  destruct (String.eqb_spec (html.Key a) "href") as [Hk|Hk].
  - unfold regexp.FindStringSubmatch at 1 2.
    destruct (regexp.find (html.Val a)) as [[whole g]|] eqn:E.
    + cbn. intros H. injection H as <-. exists a, whole.
      split; [now left|]. split; [exact Hk|].
      unfold regexp.FindStringSubmatch. now rewrite E.
    + cbn. intros H. destruct (IH H) as (b & whole & Hin & Hb).
      exists b, whole. split; [now right | exact Hb].
  - intros H. destruct (IH H) as (b & whole & Hin & Hb).
    exists b, whole. split; [now right | exact Hb].
Qed.

Lemma range_Attr_first (pre post : list html.Attribute) (a : html.Attribute)
    (whole g : string) :
  (forall b, In b pre -> html.Key b = "href" ->
             regexp.FindStringSubmatch (html.Val b) = []) ->
  html.Key a = "href" ->
  regexp.FindStringSubmatch (html.Val a) = [whole; g] ->
  range_Attr (pre ++ a :: post) = Some g.
Proof.
  intros Hpre Hk Hm. induction pre as [|b pre IH]; cbn [app range_Attr].
  - apply String.eqb_eq in Hk. rewrite Hk, Hm. reflexivity.
  - destruct (String.eqb_spec (html.Key b) "href") as [Hb|Hb].
    + rewrite (Hpre b (or_introl eq_refl) Hb). cbn.
      apply IH. intros b' Hin. apply Hpre. now right.
    + apply IH. intros b' Hin. apply Hpre. now right.
Qed.

Lemma fetchLiveVideoId_selects (web : Web) (channelId : string)
    (node : html.Node) :
  selects web channelId node ->
  fetchLiveVideoId web channelId =
  match range_Attr (html.Attr node) with
  | Some id => Ok id
  | None => Ok empty
  end.
Proof.
  intros (req & resp & doc & sel & H1 & H2 & H3 & H4 & HQ).
  rewrite (fetchLiveVideoId_steps web channelId req resp doc sel H1 H2 H3 H4).
  now rewrite HQ.
Qed.

Lemma string_app_nil_r (s : string) : (s ++ EmptyString)%string = s.
Proof. induction s as [|c s IH]; simpl; [reflexivity | now rewrite IH]. Qed.

Lemma EqualFoldASCII_length (a b : string) :
  EqualFoldASCII a b = true -> String.length a = String.length b.
Proof.
  revert b. induction a as [|x a IH]; intros [|y b] H; simpl in H;
    try discriminate; [reflexivity|].
  apply andb_true_iff in H as [_ H]. simpl. f_equal. now apply IH.
Qed.

Lemma matchHere_short (s : string) :
  String.length s < String.length regexp.literal ->
  regexp.matchHere s = None.
Proof.
  intros Hlen. unfold regexp.matchHere.
  destruct (regexp.matchLiteralFold regexp.literal s) as [[m rest]|] eqn:E;
    [|reflexivity].
  apply matchLiteralFold_app in E as [-> Hm].
  rewrite string_app_length in Hlen. lia.
Qed.

Lemma find_short (s : string) :
  String.length s < String.length regexp.literal -> regexp.find s = None.
Proof.
  induction s as [|c s IH]; intros Hlen; rewrite find_unfold,
    (matchHere_short _ Hlen); [reflexivity|].
  apply IH. cbn [String.length] in Hlen. lia.
Qed.

(** A watch URL with nothing after [v=] is no match. *)
Lemma FindStringSubmatch_empty_id (P : string) :
  EqualFoldASCII P regexp.literal = true ->
  regexp.FindStringSubmatch P = [].
Proof.
  intros HP. unfold regexp.FindStringSubmatch.
  assert (Hfind : regexp.find P = None).
  { rewrite find_unfold. unfold regexp.matchHere.
    rewrite <- (string_app_nil_r P) at 1.
    rewrite (matchLiteralFold_EqualFold _ _ EmptyString HP).
    cbn [regexp.takeLine].
    pose proof (EqualFoldASCII_length _ _ HP) as Hlen.
    destruct P as [|c P]; [discriminate Hlen|].
    apply find_short. rewrite <- Hlen. simpl. lia. }
  now rewrite Hfind.
Qed.

Lemma takeLine_app_LF (S rest : string) :
  contains S LF = false ->
  regexp.takeLine (S ++ String LF rest) = S.
Proof.
  induction S as [|c S IH]; intros H.
  - cbn [append regexp.takeLine]. now rewrite Ascii.eqb_refl.
  - cbn [contains] in H. apply orb_false_iff in H as [Hc HS].
    cbn [append regexp.takeLine].
    rewrite Ascii.eqb_sym, Hc, (IH HS). reflexivity.
Qed.

Lemma FindStringSubmatch_line (P S rest : string) :
  EqualFoldASCII P regexp.literal = true ->
  S <> EmptyString ->
  contains S LF = false ->
  regexp.FindStringSubmatch (P ++ S ++ String LF rest)
    = [(P ++ S)%string; S].
Proof.
  intros HP HS HLF. unfold regexp.FindStringSubmatch.
  rewrite find_unfold. unfold regexp.matchHere.
  rewrite (matchLiteralFold_EqualFold _ _ _ HP), (takeLine_app_LF _ _ HLF).
  destruct S; [congruence | reflexivity].
Qed.

(** ** More about the resolver *)

(** X1.  A non-empty id returned by [fetchLiveVideoId] is never made up: it
    stands in the value of an [href] attribute of the node the selector
    found, directly after text that matches the literal
    [https://www.youtube.com/watch?v=] under case folding; it contains no
    line feed and runs to the end of its line.  The text before the match
    is arbitrary: the expression is not anchored. *)
Theorem fetchLiveVideoId_id_origin (web : Web) (channelId id : string) :
  fetchLiveVideoId web channelId = Ok id ->
  id <> empty ->
  exists node a pre m post,
    selects web channelId node /\
    In a (html.Attr node) /\
    html.Key a = "href" /\
    html.Val a = (pre ++ m ++ id ++ post)%string /\
    regexp.matchLiteralFold regexp.literal (m ++ id ++ post)
      = Some (m, (id ++ post)%string) /\
    contains id LF = false /\
    (post = EmptyString \/ exists post', post = String LF post').
Proof.
  intros H Hid. unfold fetchLiveVideoId in H.
  destruct (http_NewRequest web http.MethodGet (live_url channelId))
    as [req|] eqn:H1; [|discriminate].
  destruct (http_Do web (http.AddCookie req consent_cookie))
    as [resp|] eqn:H2; [|discriminate].
  destruct (html_Parse web (http.Body resp)) as [doc|] eqn:H3; [|discriminate].
  destruct (cascadia_Parse web "link[rel='canonical']")
    as [sel|] eqn:H4; [|discriminate].
  destruct (cascadia_Query web doc sel) as [node|] eqn:HQ;
    [|injection H as <-; now elim Hid].
  destruct (range_Attr (html.Attr node)) as [id'|] eqn:HR;
    [|injection H as <-; now elim Hid].
  injection H as ->.
  destruct (range_Attr_some _ _ HR) as (a & whole & Hin & Hk & Hm).
  destruct (FindStringSubmatch_shape _ _ _ Hm)
    as (pre & m & post & Hval & _ & Hlit & _ & Hno & Hpost).
  exists node, a, pre, m, post.
  split; [now exists req, resp, doc, sel|]. auto 10.
Qed.

Lemma fetchLiveVideoId_id_origin_witness :
  exists node a pre m post,
    selects (sample.web (Some (sample.canonical
               "//consent.youtube.com/m?continue=https://www.youtube.com/watch?v=abc")))
      "UC1" node /\
    In a (html.Attr node) /\
    html.Key a = "href" /\
    html.Val a = (pre ++ m ++ "abc" ++ post)%string /\
    regexp.matchLiteralFold regexp.literal (m ++ "abc" ++ post)
      = Some (m, ("abc" ++ post)%string) /\
    contains "abc" LF = false /\
    (post = EmptyString \/ exists post', post = String LF post').
Proof.
  refine (fetchLiveVideoId_id_origin
            (sample.web (Some (sample.canonical
               "//consent.youtube.com/m?continue=https://www.youtube.com/watch?v=abc")))
            "UC1" "abc" eq_refl _).
  discriminate.
Defined.

(** X2.  Among the attributes of the selected node, the first [href] whose
    value matches [re] decides: attributes with another name and [href]
    attributes that do not match are passed over, and later attributes are
    not looked at. *)
Theorem fetchLiveVideoId_first_matching_href (web : Web) (channelId : string)
    (node : html.Node) (pre post : list html.Attribute) (a : html.Attribute)
    (whole g : string) :
  selects web channelId node ->
  html.Attr node = pre ++ a :: post ->
  (forall b, In b pre -> html.Key b = "href" ->
             regexp.FindStringSubmatch (html.Val b) = []) ->
  html.Key a = "href" ->
  regexp.FindStringSubmatch (html.Val a) = [whole; g] ->
  fetchLiveVideoId web channelId = Ok g.
Proof.
  intros Hsel HA Hpre Hk Hm.
  rewrite (fetchLiveVideoId_selects _ _ _ Hsel), HA.
  now rewrite (range_Attr_first pre post a whole g Hpre Hk Hm).
Qed.

Lemma fetchLiveVideoId_first_matching_href_witness :
  fetchLiveVideoId
    (sample.web (Some
       {| html.Data := "link";
          html.Attr :=
            [ {| html.Key := "href"; html.Val := "/channel/UC1" |};
              {| html.Key := "rel"; html.Val := "canonical" |};
              {| html.Key := "href"; html.Val := sample.watch "first" |};
              {| html.Key := "href"; html.Val := sample.watch "second" |} ] |}))
    "UC1" = Ok "first".
Proof.
  refine (fetchLiveVideoId_first_matching_href _ "UC1"
            {| html.Data := "link";
               html.Attr :=
                 [ {| html.Key := "href"; html.Val := "/channel/UC1" |};
                   {| html.Key := "rel"; html.Val := "canonical" |};
                   {| html.Key := "href"; html.Val := sample.watch "first" |};
                   {| html.Key := "href";
                      html.Val := sample.watch "second" |} ] |}
            [ {| html.Key := "href"; html.Val := "/channel/UC1" |};
              {| html.Key := "rel"; html.Val := "canonical" |} ]
            [ {| html.Key := "href"; html.Val := sample.watch "second" |} ]
            {| html.Key := "href"; html.Val := sample.watch "first" |}
            (sample.watch "first") "first" _ eq_refl _ eq_refl eq_refl).
  - exists {| http.Method := "GET"; http.URL := live_url "UC1";
              http.Cookies := [] |},
           {| http.StatusCode := 200; http.Body := "<html></html>" |}, tt, tt.
    repeat split; reflexivity.
  - intros b [<-|[<-|[]]] Hk; [reflexivity | discriminate Hk].
Defined.

(** X3.  When the value of the first [href] is a watch URL whose suffix
    holds a line feed, the id returned is the part of the suffix before the
    first line feed, provided that part is not empty. *)
Theorem fetchLiveVideoId_stops_at_line_feed (web : Web) (channelId : string)
    (node : html.Node) (pre post : list html.Attribute) (P S rest : string) :
  selects web channelId node ->
  html.Attr node
    = pre ++ {| html.Key := "href";
                html.Val := (P ++ S ++ String LF rest)%string |} :: post ->
  Forall (fun a => html.Key a <> "href") pre ->
  EqualFoldASCII P regexp.literal = true ->
  S <> EmptyString ->
  contains S LF = false ->
  fetchLiveVideoId web channelId = Ok S.
Proof.
  intros Hsel HA Hpre HP HS HLF.
  rewrite (fetchLiveVideoId_selects _ _ _ Hsel), HA.
  rewrite (range_Attr_skip _ _ Hpre).
  cbn [range_Attr html.Key html.Val]. rewrite String.eqb_refl.
  rewrite (FindStringSubmatch_line P S rest HP HS HLF). reflexivity.
Qed.

Lemma fetchLiveVideoId_stops_at_line_feed_witness :
  fetchLiveVideoId
    (sample.live ("abc" ++ String LF "def")) "UC1" = Ok "abc".
Proof.
  refine (fetchLiveVideoId_stops_at_line_feed
            (sample.live ("abc" ++ String LF "def")) "UC1"
            (sample.canonical (sample.watch ("abc" ++ String LF "def")))
            [ {| html.Key := "rel"; html.Val := "canonical" |} ] []
            regexp.literal "abc" "def" _ eq_refl _ eq_refl _ eq_refl).
  - exists {| http.Method := "GET"; http.URL := live_url "UC1";
              http.Cookies := [] |},
           {| http.StatusCode := 200; http.Body := "<html></html>" |}, tt, tt.
    repeat split; reflexivity.
  - constructor; [discriminate | constructor].
  - discriminate.
Defined.

(** X4.  When every [href] of the selected node is the watch URL with
    nothing after [v=], the resolver returns the empty string and no error:
    the channel counts as not live. *)
Theorem fetchLiveVideoId_empty_watch_id (web : Web) (channelId : string)
    (node : html.Node) :
  selects web channelId node ->
  (forall a, In a (html.Attr node) -> html.Key a = "href" ->
             EqualFoldASCII (html.Val a) regexp.literal = true) ->
  fetchLiveVideoId web channelId = Ok empty.
Proof.
  intros Hsel Hall.
  rewrite (fetchLiveVideoId_selects _ _ _ Hsel).
  rewrite range_Attr_none; [reflexivity|].
  intros a Hin Hk. apply FindStringSubmatch_empty_id. now apply Hall.
Qed.

Lemma fetchLiveVideoId_empty_watch_id_witness :
  fetchLiveVideoId (sample.live EmptyString) "UC1" = Ok empty.
Proof.
  refine (fetchLiveVideoId_empty_watch_id (sample.live EmptyString) "UC1"
            (sample.canonical (sample.watch EmptyString)) _ _).
  - exists {| http.Method := "GET"; http.URL := live_url "UC1";
              http.Cookies := [] |},
           {| http.StatusCode := 200; http.Body := "<html></html>" |}, tt, tt.
    repeat split; reflexivity.
  - intros a [<-|[<-|[]]] Hk; [discriminate Hk | reflexivity].
Defined.

(** ** More about the orchestrator *)

Lemma refresh_inv (web : Web) (src : youtube.Service) (channelId : string)
    (w w' : World) (r : outcome (option error)) :
  refresh web src channelId w = (r, w') ->
  exists k new, cycle web src channelId r k new /\ w' = after k new w.
Proof.
  intros H.
  destruct (refresh_cycle web src channelId) as (r0 & k & new & Hcyc & Hrun).
  rewrite Hrun in H. injection H as <- <-. now exists k, new.
Qed.

Lemma candidates_channel (web : Web) (src : youtube.Service)
    (channelId : string) (c : youtube.Channel) (uploads liveVideoId : string)
    (videoIds : list string) :
  candidates web src channelId c uploads liveVideoId videoIds ->
  fetchChannel src channelId = Ok (Some c) /\
  fetchLiveVideoId web (youtube.Channel_Id c) = Ok liveVideoId /\
  exists details,
    youtube.Channel_ContentDetails c = Some details /\
    youtube.RelatedPlaylists details = Some {| youtube.Uploads := uploads |}.
Proof.
  intros (details & items & ids & Hc & Hl & Hd & Hr & _). eauto.
Qed.

Lemma playlist_video_ids_None (items : list (option youtube.PlaylistItem)) :
  playlist_video_ids items = None ->
  exists item,
    In item items /\
    (item = None \/
     exists i, item = Some i /\ youtube.PlaylistItem_ContentDetails i = None).
Proof.
  induction items as [|[i|] items IH]; simpl; intros H.
  - discriminate.
  - destruct (youtube.PlaylistItem_ContentDetails i) as [d|] eqn:Hd.
    + destruct (playlist_video_ids items); [discriminate|].
      destruct (IH eq_refl) as (item & Hin & Hitem).
      exists item. split; [now right | exact Hitem].
    + exists (Some i). split; [now left|]. right. now exists i.
  - exists None. split; [now left | now left].
Qed.

Lemma In_fetchVideos_first_calls (channelId : string) (c : youtube.Channel)
    (uploads : string) (ids videoIds : list string) :
  In (Call_fetchVideos ids)
     (first_calls channelId c uploads ++ [Call_fetchVideos videoIds]) ->
  ids = videoIds.
Proof.
  intros [H|[H|[H|[H|[]]]]]; try discriminate H. now injection H.
Qed.

Lemma not_In_fetchVideos_first_calls (channelId : string) (c : youtube.Channel)
    (uploads : string) (ids : list string) :
  ~ In (Call_fetchVideos ids) (first_calls channelId c uploads).
Proof. intros [H|[H|[H|[]]]]; discriminate H. Qed.

(** X5.  Call discipline of one cycle.  The fetchers are called at most
    once each and in the order channel, live id, playlist, videos.  The live
    page is requested for the id of the fetched channel record, the playlist
    is that record's uploads playlist, and [fetchVideos] is never called
    with an empty id list. *)
Theorem refresh_call_discipline (web : Web) (src : youtube.Service)
    (channelId : string) (w w' : World) (r : outcome (option error)) :
  refresh web src channelId w = (r, w') ->
  exists new,
    calls w' = calls w ++ new /\
    (new = [Call_fetchChannel channelId] \/
     exists c,
       fetchChannel src channelId = Ok (Some c) /\
       (new = [Call_fetchChannel channelId;
               Call_fetchLiveVideoId (youtube.Channel_Id c)] \/
        exists details uploads,
          youtube.Channel_ContentDetails c = Some details /\
          youtube.RelatedPlaylists details
            = Some {| youtube.Uploads := uploads |} /\
          (new = [Call_fetchChannel channelId;
                  Call_fetchLiveVideoId (youtube.Channel_Id c);
                  Call_fetchPlaylistItems uploads] \/
           exists videoIds,
             videoIds <> [] /\
             new = [Call_fetchChannel channelId;
                    Call_fetchLiveVideoId (youtube.Channel_Id c);
                    Call_fetchPlaylistItems uploads;
                    Call_fetchVideos videoIds]))).
Proof.
  intros H. destruct (refresh_inv _ _ _ _ _ _ H) as (k & new & Hcyc & ->).
  exists new. split; [reflexivity|].
  inversion Hcyc; subst;
    repeat match goal with
    | Hc : candidates _ _ _ _ _ _ _ |- _ =>
        apply candidates_channel in Hc as (? & ? & ? & ? & ?)
    end;
    try (left; reflexivity); right; eexists; (split; [eassumption|]);
    try (left; reflexivity); right; do 2 eexists;
    (split; [eassumption|]); (split; [eassumption|]);
    try (left; reflexivity); right; eexists; split; eauto.
Qed.

Lemma refresh_call_discipline_witness :
  let src := sample.service [Some sample.channel] ["A"]
               (fun ids => Ok (sample.present ids)) in
  exists new,
    calls (snd (refresh (sample.live "X") src "configured" sample.old))
      = calls sample.old ++ new /\
    (new = [Call_fetchChannel "configured"] \/
     exists c,
       fetchChannel src "configured" = Ok (Some c) /\
       (new = [Call_fetchChannel "configured";
               Call_fetchLiveVideoId (youtube.Channel_Id c)] \/
        exists details uploads,
          youtube.Channel_ContentDetails c = Some details /\
          youtube.RelatedPlaylists details
            = Some {| youtube.Uploads := uploads |} /\
          (new = [Call_fetchChannel "configured";
                  Call_fetchLiveVideoId (youtube.Channel_Id c);
                  Call_fetchPlaylistItems uploads] \/
           exists videoIds,
             videoIds <> [] /\
             new = [Call_fetchChannel "configured";
                    Call_fetchLiveVideoId (youtube.Channel_Id c);
                    Call_fetchPlaylistItems uploads;
                    Call_fetchVideos videoIds]))).
Proof.
  intros src.
  exact (refresh_call_discipline (sample.live "X") src "configured" sample.old
           _ _ eq_refl).
Defined.

(** X6.  The id list of the batched request.  Whenever a cycle calls
    [fetchVideos], the ids it asks for are the resolved live id, when that
    is not empty, followed by the video id of every playlist item in
    playlist order; nothing is removed, so a live video that is also in the
    playlist is asked for twice. *)
Theorem refresh_batch_request (web : Web) (src : youtube.Service)
    (channelId : string) (w w' : World) (r : outcome (option error))
    (new : list Call) (videoIds : list string) :
  refresh web src channelId w = (r, w') ->
  calls w' = calls w ++ new ->
  In (Call_fetchVideos videoIds) new ->
  exists c uploads liveVideoId playlistItems ids,
    fetchChannel src channelId = Ok (Some c) /\
    fetchLiveVideoId web (youtube.Channel_Id c) = Ok liveVideoId /\
    fetchPlaylistItems src uploads = Ok playlistItems /\
    playlist_video_ids (elems playlistItems) = Some ids /\
    List.length ids = len playlistItems /\
    videoIds = (if String.eqb liveVideoId empty then ids
                else liveVideoId :: ids).
Proof.
  intros H Hcalls Hin.
  destruct (refresh_inv _ _ _ _ _ _ H) as (k & new0 & Hcyc & ->).
  cbn [after calls] in Hcalls. apply app_inv_head in Hcalls. subst new0.
  assert (Hlen : forall items ids,
             playlist_video_ids items = Some ids ->
             List.length ids = List.length items).
  { induction items as [|[i|] items IH]; simpl; intros ids Hi;
      try discriminate.
    - now injection Hi as <-.
    - destruct (youtube.PlaylistItem_ContentDetails i); [|discriminate].
      destruct (playlist_video_ids items) as [ids'|]; [|discriminate].
      injection Hi as <-. simpl. f_equal. now apply IH. }
  inversion Hcyc; subst;
    try (apply In_fetchVideos_first_calls in Hin; subst videoIds);
    try (now apply not_In_fetchVideos_first_calls in Hin);
    try (destruct Hin as [Hin|[Hin|[]]]; discriminate Hin);
    try (destruct Hin as [Hin|[]]; discriminate Hin);
    match goal with
    | Hc : candidates _ _ _ ?c ?uploads ?live _ |- _ =>
        destruct Hc as (details & items & ids & Hc & Hl & Hd & Hr & Hp & Hi & ->);
        exists c, uploads, live, items, ids;
        (repeat split; try assumption; [now apply Hlen|]);
        unfold candidate_ids; now destruct (String.eqb live empty)
    end.
Qed.

Lemma refresh_batch_request_witness :
  let src := sample.service [Some sample.channel] ["X"; "A"]
               (fun ids => Ok (sample.present ids)) in
  exists c uploads liveVideoId playlistItems ids,
    fetchChannel src "UC1" = Ok (Some c) /\
    fetchLiveVideoId (sample.live "X") (youtube.Channel_Id c)
      = Ok liveVideoId /\
    fetchPlaylistItems src uploads = Ok playlistItems /\
    playlist_video_ids (elems playlistItems) = Some ids /\
    List.length ids = len playlistItems /\
    ["X"; "X"; "A"] = (if String.eqb liveVideoId empty then ids
                       else liveVideoId :: ids).
Proof.
  intros src.
  refine (refresh_batch_request (sample.live "X") src "UC1" sample.old _ _
            [Call_fetchChannel "UC1"; Call_fetchLiveVideoId "UC1";
             Call_fetchPlaylistItems "UU1"; Call_fetchVideos ["X"; "X"; "A"]]
            ["X"; "X"; "A"] eq_refl eq_refl _).
  do 3 right. now left.
Defined.

(** X7.  A successful cycle replaces the whole snapshot: the snapshot it
    leaves does not depend on the snapshot it found. *)
Theorem refresh_success_overwrites (web : Web) (src : youtube.Service)
    (channelId : string) (w1 w1' w2 : World) :
  refresh web src channelId w1 = (Returned None, w1') ->
  exists w2',
    refresh web src channelId w2 = (Returned None, w2') /\
    state w2' = state w1'.
Proof.
  intros H. destruct (refresh_inv _ _ _ _ _ _ H) as (k & new & Hcyc & ->).
  exists (after k new w2). split; [exact (cycle_run _ _ _ _ _ _ Hcyc w2)|].
  rewrite !after_state. inversion Hcyc; reflexivity.
Qed.

Lemma refresh_success_overwrites_witness :
  let src := sample.service [Some sample.channel] ["A"]
               (fun ids => Ok (sample.present ids)) in
  exists w2',
    refresh (sample.live "X") src "UC1"
      {| state := new_State; calls := [] |} = (Returned None, w2') /\
    state w2' = state (snd (refresh (sample.live "X") src "UC1" sample.old)).
Proof.
  intros src.
  exact (refresh_success_overwrites (sample.live "X") src "UC1" sample.old _
           {| state := new_State; calls := [] |} eq_refl).
Defined.

(** X8.  Nothing of the batch response is lost or reordered: after a
    successful cycle that called [fetchVideos], [liveVideo] (when set)
    followed by [videos] is the response, element by element. *)
Theorem refresh_response_conserved (web : Web) (src : youtube.Service)
    (channelId : string) (w w' : World) (new : list Call)
    (videoIds : list string) (videos : slice (option youtube.Video)) :
  refresh web src channelId w = (Returned None, w') ->
  calls w' = calls w ++ new ->
  In (Call_fetchVideos videoIds) new ->
  fetchVideos src videoIds = Ok videos ->
  pointee (LiveVideo (state w')) ++ elems (Videos (state w')) = elems videos.
Proof.
  intros H Hcalls Hin Hv.
  destruct (refresh_inv _ _ _ _ _ _ H) as (k & new0 & Hcyc & ->).
  cbn [after calls] in Hcalls. apply app_inv_head in Hcalls. subst new0.
  rewrite after_state.
  inversion Hcyc; subst;
    try (now apply not_In_fetchVideos_first_calls in Hin);
    apply In_fetchVideos_first_calls in Hin; subst videoIds;
    match goal with
    | Hv' : fetchVideos _ _ = Ok _ |- _ =>
        rewrite Hv in Hv'; injection Hv' as <-
    end;
    cbn [LiveVideo Videos pointee elems app].
  - congruence.
  - reflexivity.
Qed.

Lemma refresh_response_conserved_witness :
  let src := sample.service [Some sample.channel] ["A"; "B"]
               (fun ids => Ok (sample.present ids)) in
  let w' := snd (refresh (sample.live "X") src "UC1" sample.old) in
  pointee (LiveVideo (state w')) ++ elems (Videos (state w'))
    = elems (sample.present ["X"; "A"; "B"]).
Proof.
  intros src w'.
  refine (refresh_response_conserved (sample.live "X") src "UC1" sample.old w'
            [Call_fetchChannel "UC1"; Call_fetchLiveVideoId "UC1";
             Call_fetchPlaylistItems "UU1"; Call_fetchVideos ["X"; "A"; "B"]]
            ["X"; "A"; "B"] (sample.present ["X"; "A"; "B"])
            eq_refl eq_refl _ eq_refl).
  do 3 right. now left.
Defined.

(** X9.  Whenever a successful cycle leaves [liveVideo] set, that video is
    the first element of the batch response and its id is the id the
    resolver returned for the fetched channel. *)
Theorem refresh_live_video_origin (web : Web) (src : youtube.Service)
    (channelId : string) (w w' : World) (live : youtube.Video) :
  refresh web src channelId w = (Returned None, w') ->
  LiveVideo (state w') = Some live ->
  exists c uploads videoIds videos rest,
    candidates web src channelId c uploads (youtube.Video_Id live) videoIds /\
    fetchLiveVideoId web (youtube.Channel_Id c) = Ok (youtube.Video_Id live) /\
    fetchVideos src videoIds = Ok videos /\
    elems videos = Some live :: rest /\
    Videos (state w') = mk_slice rest.
Proof.
  intros H Hlive.
  destruct (refresh_inv _ _ _ _ _ _ H) as (k & new & Hcyc & ->).
  rewrite after_state in *.
  inversion Hcyc; subst; cbn [LiveVideo Videos] in *; try discriminate.
  injection Hlive as ->.
  match goal with
  | Hc : candidates _ _ _ ?c ?uploads _ ?ids, Hv : fetchVideos _ _ = Ok ?vs,
    He : elems ?vs = _ :: ?rest |- _ =>
      exists c, uploads, ids, vs, rest;
      pose proof (candidates_channel _ _ _ _ _ _ _ Hc) as (_ & Hl & _);
      auto
  end.
Qed.

Lemma refresh_live_video_origin_witness :
  let src := sample.service [Some sample.channel] ["A"]
               (fun ids => Ok (sample.present ids)) in
  let w' := snd (refresh (sample.live "X") src "UC1" sample.old) in
  exists c uploads videoIds videos rest,
    candidates (sample.live "X") src "UC1" c uploads
      (youtube.Video_Id (sample.video "X")) videoIds /\
    fetchLiveVideoId (sample.live "X") (youtube.Channel_Id c)
      = Ok (youtube.Video_Id (sample.video "X")) /\
    fetchVideos src videoIds = Ok videos /\
    elems videos = Some (sample.video "X") :: rest /\
    Videos (state w') = mk_slice rest.
Proof.
  intros src w'.
  exact (refresh_live_video_origin (sample.live "X") src "UC1" sample.old w'
           (sample.video "X") eq_refl eq_refl).
Defined.

(** X10.  When the resolver finds no live video and no video of a batch
    response has an empty id, a successful cycle leaves [liveVideo] nil.
    (The comparison with the first video is made even when the live id is
    empty, so the condition on the ids is needed.) *)
Theorem refresh_offline_no_live_video (web : Web) (src : youtube.Service)
    (channelId : string) (w w' : World) (c : youtube.Channel) :
  fetchChannel src channelId = Ok (Some c) ->
  fetchLiveVideoId web (youtube.Channel_Id c) = Ok empty ->
  (forall videoIds videos v,
      fetchVideos src videoIds = Ok videos ->
      In (Some v) (elems videos) ->
      youtube.Video_Id v <> empty) ->
  refresh web src channelId w = (Returned None, w') ->
  LiveVideo (state w') = None.
Proof.
  intros Hc Hl Hids H.
  destruct (refresh_inv _ _ _ _ _ _ H) as (k & new & Hcyc & ->).
  rewrite after_state.
  inversion Hcyc; subst; cbn [LiveVideo]; try reflexivity.
  exfalso.
  match goal with
  | Hcand : candidates _ _ _ _ _ _ _, Hv : fetchVideos _ _ = Ok ?vs,
    He : elems ?vs = Some ?v :: _ |- _ =>
      apply candidates_channel in Hcand as (Hc' & Hl' & _);
      rewrite Hc in Hc'; injection Hc' as <-;
      rewrite Hl in Hl'; injection Hl' as Hempty;
      apply (Hids _ vs v Hv); [rewrite He; now left | now symmetry]
  end.
Qed.

Lemma refresh_offline_no_live_video_witness :
  let src := sample.service [Some sample.channel] ["A"; "B"]
               (fun ids => Ok (sample.present ["A"; "B"])) in
  LiveVideo (state (snd (refresh sample.offline src "UC1" sample.old))) = None.
Proof.
  intros src.
  refine (refresh_offline_no_live_video sample.offline src "UC1" sample.old _
            sample.channel eq_refl eq_refl _ eq_refl).
  intros videoIds videos v Hv Hin. injection Hv as <-.
  destruct Hin as [Hin|[Hin|[]]]; injection Hin as <-; discriminate.
Defined.

(** X11.  The only way a cycle panics is a nil pointer dereference, never an
    index or slice bound.  It happens only on these inputs: no channel
    (or a nil one) in the lookup result; a channel record without content
    details or without related playlists; a playlist item that is nil or
    has no content details; a nil first element in the batch response.  A
    panicking cycle leaves [liveVideo] and [videos] as they were. *)
Theorem refresh_panic_causes (web : Web) (src : youtube.Service)
    (channelId : string) (w w' : World) (msg : string) :
  refresh web src channelId w = (Panicked msg, w') ->
  msg = nil_dereference /\
  LiveVideo (state w') = LiveVideo (state w) /\
  Videos (state w') = Videos (state w) /\
  (fetchChannel src channelId = Ok None \/
   exists c,
     fetchChannel src channelId = Ok (Some c) /\
     (youtube.Channel_ContentDetails c = None \/
      (exists details,
         youtube.Channel_ContentDetails c = Some details /\
         youtube.RelatedPlaylists details = None) \/
      (exists uploads playlistItems item,
         fetchPlaylistItems src uploads = Ok playlistItems /\
         In item (elems playlistItems) /\
         (item = None \/
          exists i, item = Some i /\
                    youtube.PlaylistItem_ContentDetails i = None)) \/
      (exists videoIds videos rest,
         fetchVideos src videoIds = Ok videos /\
         elems videos = None :: rest))).
Proof.
  intros H. destruct (refresh_inv _ _ _ _ _ _ H) as (k & new & Hcyc & ->).
  rewrite after_state.
  inversion Hcyc; subst; (split; [reflexivity|]);
    (split; [reflexivity|]); (split; [reflexivity|]).
  - now left.
  - right. exists c. split; [assumption|].
    match goal with
    | Hd : _ \/ _ |- _ => destruct Hd as [Hd|Hd]; [now left | right; now left]
    end.
  - right. exists c. split; [assumption|]. do 2 right. left.
    match goal with
    | Hn : playlist_video_ids _ = None |- _ =>
        apply playlist_video_ids_None in Hn as (item & Hin & Hitem)
    end.
    eauto 8.
  - right. exists c.
    match goal with
    | Hc : candidates _ _ _ _ _ _ _ |- _ =>
        apply candidates_channel in Hc as (Hc & _)
    end.
    split; [assumption|]. do 3 right. eauto.
Qed.

Lemma refresh_panic_causes_witness :
  let src := sample.service [Some sample.channel] ["A"]
               (fun _ => Ok (mk_slice [None; Some (sample.video "A")])) in
  let w' := snd (refresh sample.offline src "UC1" sample.old) in
  nil_dereference = nil_dereference /\
  LiveVideo (state w') = LiveVideo (state sample.old) /\
  Videos (state w') = Videos (state sample.old) /\
  (fetchChannel src "UC1" = Ok None \/
   exists c,
     fetchChannel src "UC1" = Ok (Some c) /\
     (youtube.Channel_ContentDetails c = None \/
      (exists details,
         youtube.Channel_ContentDetails c = Some details /\
         youtube.RelatedPlaylists details = None) \/
      (exists uploads playlistItems item,
         fetchPlaylistItems src uploads = Ok playlistItems /\
         In item (elems playlistItems) /\
         (item = None \/
          exists i, item = Some i /\
                    youtube.PlaylistItem_ContentDetails i = None)) \/
      (exists videoIds videos rest,
         fetchVideos src videoIds = Ok videos /\
         elems videos = None :: rest))).
Proof.
  intros src w'.
  exact (refresh_panic_causes sample.offline src "UC1" sample.old w'
           nil_dereference eq_refl).
Defined.

(** ** The polling loop *)

Lemma poll_app (ups1 ups2 : list (Web * youtube.Service)) (channel : string) :
  forall (w : World) (log : list Entry),
    poll (ups1 ++ ups2) channel w log =
    match poll ups1 channel w log with
    | (Looping, w1, log1) => poll ups2 channel w1 log1
    | crashed => crashed
    end.
Proof.
  induction ups1 as [|[web src] ups1 IH]; intros w log; cbn [app poll].
  - reflexivity.
  - destruct (refresh web src channel w) as [[[err|]|msg] w1].
    + apply IH.
    + apply IH.
    + reflexivity.
Qed.

Lemma cycle_error_keeps (web : Web) (src : youtube.Service) (channel : string)
    (err : error) (k : State -> State) (new : list Call) :
  cycle web src channel (Returned (Some err)) k new ->
  forall s, LiveVideo (k s) = LiveVideo s /\ Videos (k s) = Videos s.
Proof. inversion 1; intros s; split; reflexivity. Qed.

Lemma cycle_success_const (web : Web) (src : youtube.Service) (channel : string)
    (k : State -> State) (new : list Call) :
  cycle web src channel (Returned None) k new ->
  forall s1 s2, k s1 = k s2.
Proof. inversion 1; reflexivity. Qed.

(** X12.  A panic in a cycle is not recovered by the loop: the process ends
    there, with the snapshot as the panicking cycle left it and nothing
    logged for that cycle; the cycles that would follow never run. *)
Theorem poll_stops_at_panic (before later : list (Web * youtube.Service))
    (web : Web) (src : youtube.Service) (channel : string)
    (w w1 w2 : World) (log log1 : list Entry) (msg : string) :
  poll before channel w log = (Looping, w1, log1) ->
  refresh web src channel w1 = (Panicked msg, w2) ->
  poll (before ++ (web, src) :: later) channel w log = (Crashed msg, w2, log1).
Proof.
  intros Hbefore Hpanic.
  rewrite poll_app, Hbefore. cbn [poll]. now rewrite Hpanic.
Qed.

Lemma poll_stops_at_panic_witness :
  let good := sample.service [Some sample.channel] ["A"]
                (fun ids => Ok (sample.present ids)) in
  let gone := sample.service [] ["A"] (fun ids => Ok (sample.present ids)) in
  let w1 := snd (refresh sample.offline good "UC1" sample.old) in
  poll ([(sample.offline, good)] ++ (sample.offline, gone)
          :: [(sample.offline, good); (sample.offline, good)])
    "UC1" sample.old []
  = (Crashed nil_dereference,
     {| state := state w1; calls := calls w1 ++ [Call_fetchChannel "UC1"] |},
     []).
Proof.
  intros good gone w1.
  exact (poll_stops_at_panic [(sample.offline, good)]
           [(sample.offline, good); (sample.offline, good)]
           sample.offline gone "UC1" sample.old w1 _ [] [] nil_dereference
           eq_refl eq_refl).
Defined.

(** X13.  While every cycle returns an error the loop keeps running, logs
    one entry per cycle, and [liveVideo] and [videos] stay what they were
    before the first failure: readers are served the last good lists. *)
Theorem poll_stale_while_failing (ups : list (Web * youtube.Service))
    (channel : string) :
  (forall web src,
      In (web, src) ups ->
      exists err, forall w0,
        fst (refresh web src channel w0) = Returned (Some err)) ->
  forall (w : World) (log : list Entry),
  exists w' log',
    poll ups channel w log = (Looping, w', log') /\
    LiveVideo (state w') = LiveVideo (state w) /\
    Videos (state w') = Videos (state w) /\
    List.length log' = List.length log + List.length ups.
Proof.
  induction ups as [|[web src] ups IH]; intros Hfail w log.
  - exists w, log. cbn. auto with arith.
  - destruct (Hfail web src (or_introl eq_refl)) as (err & Herr).
    destruct (refresh web src channel w) as [r w1] eqn:Hrun.
    pose proof (Herr w) as Hr. rewrite Hrun in Hr. cbn [fst] in Hr. subst r.
    destruct (refresh_inv _ _ _ _ _ _ Hrun) as (k & new & Hcyc & ->).
    destruct (cycle_error_keeps _ _ _ _ _ _ Hcyc (state w)) as [HL HV].
    destruct (IH (fun web' src' Hin => Hfail web' src' (or_intror Hin))
                (after k new w) (log ++ [refresh_failed err]))
      as (w' & log' & Hpoll & HL' & HV' & Hlen).
    exists w', log'. cbn [poll]. rewrite Hrun.
    split; [exact Hpoll|].
    rewrite after_state in HL', HV'.
    split; [congruence|]. split; [congruence|].
    rewrite Hlen, length_app. cbn. lia.
Qed.

Lemma poll_stale_while_failing_witness :
  let quota := sample.service [Some sample.channel] ["A"]
                 (fun _ => Err "quotaExceeded") in
  let good := sample.service [Some sample.channel] ["A"]
                (fun ids => Ok (sample.present ids)) in
  exists w' log',
    poll [(sample.live "X", quota); (sample.unreachable, good)]
      "UC1" sample.old [] = (Looping, w', log') /\
    LiveVideo (state w') = LiveVideo (state sample.old) /\
    Videos (state w') = Videos (state sample.old) /\
    List.length log' = 0 + 2.
Proof.
  intros quota good.
  refine (poll_stale_while_failing
            [(sample.live "X", quota); (sample.unreachable, good)] "UC1"
            _ sample.old []).
  intros web src [E|[E|[]]]; injection E as <- <-.
  - exists "quotaExceeded". intros w0. reflexivity.
  - exists "dial tcp: i/o timeout". intros w0. reflexivity.
Defined.

(** X14.  Whatever happened before, as long as the process is still
    running, one successful cycle brings the snapshot to exactly what that
    cycle alone produces: failed cycles leave no residue. *)
Theorem poll_recovers (ups : list (Web * youtube.Service)) (web : Web)
    (src : youtube.Service) (channel : string) (w w1 w0 w0' : World)
    (log log1 : list Entry) :
  poll ups channel w log = (Looping, w1, log1) ->
  refresh web src channel w0 = (Returned None, w0') ->
  exists w2,
    poll (ups ++ [(web, src)]) channel w log = (Looping, w2, log1) /\
    state w2 = state w0'.
Proof.
  intros Hups Hok.
  destruct (refresh_inv _ _ _ _ _ _ Hok) as (k & new & Hcyc & ->).
  exists (after k new w1). split.
  - rewrite poll_app, Hups. cbn [poll].
    now rewrite (cycle_run _ _ _ _ _ _ Hcyc w1).
  - rewrite !after_state. apply (cycle_success_const _ _ _ _ _ Hcyc).
Qed.

Lemma poll_recovers_witness :
  let quota := sample.service [Some sample.channel] ["A"]
                 (fun _ => Err "quotaExceeded") in
  let good := sample.service [Some sample.channel] ["A"]
                (fun ids => Ok (sample.present ids)) in
  exists w2,
    poll ([(sample.live "X", quota)] ++ [(sample.live "X", good)])
      "UC1" sample.old [] = (Looping, w2, [refresh_failed "quotaExceeded"]) /\
    state w2
      = state (snd (refresh (sample.live "X") good "UC1"
                      {| state := new_State; calls := [] |})).
Proof.
  intros quota good.
  exact (poll_recovers [(sample.live "X", quota)] (sample.live "X") good
           "UC1" sample.old _ {| state := new_State; calls := [] |} _
           [] [refresh_failed "quotaExceeded"] eq_refl eq_refl).
Defined.

(** X15.  Against an upstream that keeps answering the same way, and whose
    cycle does not panic, any number of further cycles leaves the snapshot
    as the first cycle left it; when the cycle fails, the same error is
    logged once per cycle. *)
Theorem poll_constant_upstream (web : Web) (src : youtube.Service)
    (channel : string) (n : nat) (w w1 : World) (r : option error)
    (log : list Entry) :
  refresh web src channel w = (Returned r, w1) ->
  exists w',
    poll (repeat (web, src) (S n)) channel w log
      = (Looping, w',
         log ++ match r with
                | Some err => repeat (refresh_failed err) (S n)
                | None => []
                end) /\
    state w' = state w1.
Proof.
  intros Hrun.
  destruct (refresh_inv _ _ _ _ _ _ Hrun) as (k & new & Hcyc & ->).
  pose proof (cycle_run _ _ _ _ _ _ Hcyc) as Hall.
  pose proof (cycle_idempotent _ _ _ _ _ _ Hcyc) as Hidem.
  clear Hrun. revert w log.
  induction n as [|n IH]; intros w log.
  - exists (after k new w). cbn [repeat poll]. rewrite Hall.
    destruct r as [err|]; cbn [repeat]; [|rewrite app_nil_r]; auto.
  - cbn [repeat poll]. rewrite Hall.
    destruct r as [err|].
    + destruct (IH (after k new w) (log ++ [refresh_failed err]))
        as (w' & Hpoll & Hstate).
      exists w'. cbn [repeat poll] in Hpoll. rewrite Hpoll.
      rewrite <- app_assoc. split; [reflexivity|].
      rewrite Hstate, !after_state. apply Hidem.
    + destruct (IH (after k new w) log) as (w' & Hpoll & Hstate).
      exists w'. cbn [repeat poll] in Hpoll. rewrite Hpoll.
      split; [reflexivity|].
      rewrite Hstate, !after_state. apply Hidem.
Qed.

Lemma poll_constant_upstream_witness :
  let quota := sample.service [Some sample.channel] ["A"]
                 (fun _ => Err "quotaExceeded") in
  exists w',
    poll (repeat (sample.live "X", quota) 3) "UC1" sample.old []
      = (Looping, w', [] ++ repeat (refresh_failed "quotaExceeded") 3) /\
    state w' = state (snd (refresh (sample.live "X") quota "UC1" sample.old)).
Proof.
  intros quota.
  exact (poll_constant_upstream (sample.live "X") quota "UC1" 2 sample.old _
           (Some "quotaExceeded") [] eq_refl).
Defined.

(** ** The HTTP endpoint *)

Lemma join_concat (l : list string) :
  json.join l = String.concat "," l.
Proof.
  induction l as [|x [|y l] IH]; [reflexivity | reflexivity |].
  change (json.join (x :: y :: l))
    with (x ++ "," ++ json.join (y :: l))%string.
  now rewrite IH.
Qed.

Lemma is_general_options_true (r : http.Request) :
  server.is_general_options r = true ->
  http.Method r = "OPTIONS" /\ http.URL r = "*".
Proof.
  unfold server.is_general_options. intros H.
  apply andb_true_iff in H as [Hu Hm].
  apply String.eqb_eq in Hu, Hm. now split.
Qed.

(** The JSON text of the snapshot, character by character. *)
Lemma Encode_text (marshalChannel : youtube.Channel -> string)
    (marshalVideo : youtube.Video -> string) (st : State) :
  let dq := String (ascii_of_nat 34) EmptyString in
  json.Encode marshalChannel marshalVideo st
  = ("{" ++ dq ++ "channel" ++ dq ++ ":"
      ++ match Channel st with
         | Some c => marshalChannel c
         | None => "null"
         end
      ++ "," ++ dq ++ "liveVideo" ++ dq ++ ":"
      ++ match LiveVideo st with
         | Some v => marshalVideo v
         | None => "null"
         end
      ++ "," ++ dq ++ "videos" ++ dq ++ ":"
      ++ match Videos st with
         | nil_slice => "null"
         | mk_slice l =>
             "[" ++ String.concat ","
                      (map (fun p : option youtube.Video =>
                              match p with
                              | Some v => marshalVideo v
                              | None => "null"
                              end) l)
                 ++ "]"
         end
      ++ "}" ++ String LF EmptyString)%string.
Proof.
  cbn zeta. unfold json.Encode, json.Marshal, json.key, json.quote.
  rewrite !string_app_assoc. cbn [append].
  repeat f_equal.
  destruct (Videos st) as [|l]; [reflexivity|].
  unfold json.array. now rewrite join_concat.
Qed.




(** X16.  After a cycle that found no candidate ids, a request other than
    HEAD and [OPTIONS *] is answered with the fetched channel, [liveVideo]
    as [null] and [videos] as the empty array [[]] (not [null]), whatever
    the snapshot was before. *)
Theorem serve_after_no_candidates
    (marshalChannel : youtube.Channel -> string)
    (marshalVideo : youtube.Video -> string)
    (web : Web) (src : youtube.Service) (channelId : string)
    (c : youtube.Channel) (uploads liveVideoId : string) (w : World)
    (r : http.Request) :
  let dq := String (ascii_of_nat 34) EmptyString in
  candidates web src channelId c uploads liveVideoId [] ->
  ~ (http.Method r = "OPTIONS" /\ http.URL r = "*") ->
  http.Method r <> "HEAD" ->
  server.body
    (server.serve marshalChannel marshalVideo
       (state (snd (refresh web src channelId w))) r)
  = ("{" ++ dq ++ "channel" ++ dq ++ ":" ++ marshalChannel c
      ++ "," ++ dq ++ "liveVideo" ++ dq ++ ":null"
      ++ "," ++ dq ++ "videos" ++ dq ++ ":[]"
      ++ "}" ++ String LF EmptyString)%string.
Proof.
  intros dq Hcand Hopt Hhead.
  rewrite (cycle_run _ _ _ _ _ _ (cycle_no_candidates Hcand) w).
  cbn [snd after state]. unfold server.serve.
  destruct (server.is_general_options r) eqn:E;
    [now elim Hopt; apply is_general_options_true|].
  unfold server.handler, server.Write.
  cbn [server.WriteHeader server.set_header server.new_ResponseWriter
       server.wroteHeader server.method server.status server.sent
       server.header server.body].
  apply String.eqb_neq in Hhead. rewrite Hhead.
  cbn [server.body append]. rewrite Encode_text.
  cbn [Channel LiveVideo Videos make_empty map String.concat].
  subst dq. rewrite !string_app_assoc. reflexivity.
Qed.

Lemma serve_after_no_candidates_witness :
  let dq := String (ascii_of_nat 34) EmptyString in
  let src := sample.service [Some sample.channel] []
               (fun ids => Ok (sample.present ids)) in
  server.body
    (server.serve youtube.Channel_Id youtube.Video_Id
       (state (snd (refresh sample.offline src "UC1" sample.old)))
       (sample.get "/"))
  = ("{" ++ dq ++ "channel" ++ dq ++ ":" ++ "UC1"
      ++ "," ++ dq ++ "liveVideo" ++ dq ++ ":null"
      ++ "," ++ dq ++ "videos" ++ dq ++ ":[]"
      ++ "}" ++ String LF EmptyString)%string.
Proof.
  intros dq src.
  refine (serve_after_no_candidates youtube.Channel_Id youtube.Video_Id
            sample.offline src "UC1" sample.channel "UU1" empty sample.old
            (sample.get "/") _ _ _).
  - eexists _, _, []. repeat split; reflexivity.
  - intros [H _]. discriminate H.
  - discriminate.
Defined.
